(** * Miller-Rabin primality testing with Montgomery arithmetic

    A shallow embedding of the two JavaScript modules of the repository:

    - the Montgomery helper module (bigint arithmetic: [bitLength], [gcd],
      [invert], [reductionContextFor], [reduce], [invReduce], [sqr], [mul],
      [pow]), embedded in [Module Montgomery];
    - [index.js] ([getRandomBitString], [testPrimality], built on bn.js),
      embedded in [Module MillerRabin].

    JavaScript [bigint] values are modelled as [Z].  The bigint operators are
    the ones of the language: [/] truncates towards zero ([Z.quot]), [%] takes
    the sign of the dividend ([Z.rem]), [>>] is the arithmetic shift
    ([Z.shiftr]), [&] and [|] work on the two's complement representation
    ([Z.land], [Z.lor]).  A bigint used as a condition is true when it is not
    zero.  Loops whose number of iterations is not fixed on entry take a
    [fuel] argument and return [None] when it runs out. *)

From Stdlib Require Import ZArith Lia List String Ascii Bool Znumtheory.
From Stdlib Require Import Setoid Morphisms.
From Stdlib Require ZmodInv.
Import ListNotations.

Local Open Scope Z_scope.

(** ** Conventions shared by both modules *)

(** A bigint in a boolean position. *)
Definition truthy (n : Z) : bool := negb (n =? 0).

(** An exception: [throw new Error(message)], or one of the errors that the
    language itself throws. *)
Inductive exn : Set :=
  | Error (message : string)
  | RangeError (message : string)
  | TypeError (message : string).

(** Sequencing of computations that may run out of fuel. *)
Definition bind {A B : Type} (c : option A) (k : A -> option B) : option B :=
  match c with
  | Some a => k a
  | None => None
  end.

Notation "x <- c ;; k" := (bind c (fun x => k))
  (at level 61, c at next level, right associativity).
Notation "' p <- c ;; k" := (bind c (fun x => let p := x in k))
  (at level 61, p pattern, c at next level, right associativity).

Module Montgomery.

(** *** [bitLength] *)

(** [n.toString(2)] for a positive [n], most significant digit first. *)
Fixpoint pos_toString2 (p : positive) (acc : string) : string :=
  match p with
  | xH => String "1" acc
  | xO q => pos_toString2 q (String "0" acc)
  | xI q => pos_toString2 q (String "1" acc)
  end.

Definition toString2 (n : Z) : string :=
  match n with
  | Z0 => "0"
  | Zpos p => pos_toString2 p ""
  | Zneg p => String "-" (pos_toString2 p "")
  end.

Definition bitLength (n : Z) : Z := Z.of_nat (String.length (toString2 n)).

(** *** [twoMultiplicity] *)

(** [while (true) { if (n & (1n << m)) return m; m++; }] *)
Fixpoint twoMultiplicity_loop (fuel : nat) (n m : Z) : option Z :=
  match fuel with
  | O => None
  | S fuel' =>
      if truthy (Z.land n (Z.shiftl 1 m)) then Some m
      else twoMultiplicity_loop fuel' n (m + 1)
  end.

Definition twoMultiplicity (fuel : nat) (n : Z) : option Z :=
  if n =? 0 then Some 0 else twoMultiplicity_loop fuel n 0.

(** *** [gcd] *)

(** [while (!(a & 1n | b & 1n)) { sharedTwoFactors++; a >>= 1n; b >>= 1n; }] *)
Fixpoint gcd_shared (fuel : nat) (sharedTwoFactors a b : Z) : option (Z * Z * Z) :=
  match fuel with
  | O => None
  | S fuel' =>
      if negb (truthy (Z.lor (Z.land a 1) (Z.land b 1)))
      then gcd_shared fuel' (sharedTwoFactors + 1) (Z.shiftr a 1) (Z.shiftr b 1)
      else Some (sharedTwoFactors, a, b)
  end.

(** [while (!(a & 1n)) a >>= 1n;] *)
Fixpoint gcd_strip (fuel : nat) (a : Z) : option Z :=
  match fuel with
  | O => None
  | S fuel' =>
      if negb (truthy (Z.land a 1))
      then gcd_strip fuel' (Z.shiftr a 1)
      else Some a
  end.

(** [while (a !== b && b > 1n) { ... }]; the value is [b] on exit. *)
Fixpoint gcd_loop (fuel : nat) (a b : Z) : option Z :=
  match fuel with
  | O => None
  | S fuel' =>
      if negb (a =? b) && (b >? 1) then
        a1 <- gcd_strip fuel' a ;;
        b1 <- gcd_strip fuel' b ;;
        if b1 >? a1 then
          (* [a, b] = [b, a]; a -= b; *)
          gcd_loop fuel' (b1 - a1) a1
        else if a1 =? b1 then
          Some b1
        else
          gcd_loop fuel' (a1 - b1) b1
      else Some b
  end.

Definition gcd (fuel : nat) (a b : Z) : option Z :=
  if a =? b then Some a
  else if a =? 0 then Some b
  else if b =? 0 then Some a
  else
    '(sharedTwoFactors, a', b') <- gcd_shared fuel 0 a b ;;
    b'' <- gcd_loop fuel a' b' ;;
    Some (Z.shiftl b'' sharedTwoFactors).

(** *** [invert] *)

(** The body of [for (let i = 0; i < exp; i++)], iterated [k] times. *)
Fixpoint invert_loop (k : nat) (base inv : Z) : Z :=
  match k with
  | O => inv
  | S k' =>
      let inv1 := if truthy (Z.land inv 1) then inv + base else inv in
      invert_loop k' base (Z.shiftr inv1 1)
  end.

Definition invert (exp base : Z) : Z := invert_loop (Z.to_nat exp) base 1.

(** *** [reductionContextFor] *)

Record MontgomeryReductionContext : Set := mkContext {
  base : Z;
  shift : Z;
  r : Z;
  rInv : Z;
  baseInv : Z
}.

Definition reductionContextFor (base : Z) : exn + MontgomeryReductionContext :=
  if negb (truthy (Z.land base 1)) then inl (Error "base must be odd")
  else
    let numBits := bitLength base in
    let littleShift := numBits + 1 in
    let shift := littleShift in
    let r := Z.shiftl 1 shift in
    let rInv := invert littleShift base in
    let baseInv := r - Z.rem (Z.quot (rInv * r - 1) base) r in
    inr (mkContext base shift r rInv baseInv).

(** *** [reductionContextFor], statement by statement

    The same function with what its evaluation order leaves to be seen: the
    constants declared when the function returns or throws, in the order of
    their declarations, and the [RangeError] of a bigint division or
    remainder by zero. *)

(** bigint [a / b] and [a % b]. *)
Definition bigint_div (a b : Z) : exn + Z :=
  if b =? 0 then inl (RangeError "Division by zero") else inr (Z.quot a b).

Definition bigint_rem (a b : Z) : exn + Z :=
  if b =? 0 then inl (RangeError "Division by zero") else inr (Z.rem a b).

(** The statements that follow the check of the modulus. *)
Definition reductionContextFor_body (base : Z)
    : list (string * Z) * (exn + MontgomeryReductionContext) :=
  let numBits := bitLength base in
  let littleShift := numBits + 1 in
  let shift := littleShift in
  let r := Z.shiftl 1 shift in
  let rInv := invert littleShift base in
  let declared :=
    [("numBits", numBits); ("littleShift", littleShift); ("shift", shift);
     ("r", r); ("rInv", rInv)]%string in
  match bigint_div (rInv * r - 1) base with
  | inl err => (declared, inl err)
  | inr quotient =>
      match bigint_rem quotient r with
      | inl err => (declared, inl err)
      | inr remainder =>
          let baseInv := r - remainder in
          (declared ++ [("baseInv"%string, baseInv)],
           inr (mkContext base shift r rInv baseInv))
      end
  end.

Definition reductionContextFor_steps (base : Z)
    : list (string * Z) * (exn + MontgomeryReductionContext) :=
  if negb (truthy (Z.land base 1)) then ([], inl (Error "base must be odd"))
  else reductionContextFor_body base.

(** *** [reduce], [invReduce], [mul], [sqr], [pow] *)

Definition reduce (n : Z) (ctx : MontgomeryReductionContext) : Z :=
  Z.rem (Z.shiftl n (shift ctx)) (base ctx).

Definition invReduce (n : Z) (ctx : MontgomeryReductionContext) : Z :=
  Z.rem (n * rInv ctx) (base ctx).

(** The value of [product] before the correction step of [mul]. *)
Definition mul_product (a b : Z) (ctx : MontgomeryReductionContext) : Z :=
  let rm1 := r ctx - 1 in
  let t := a * b in
  let c := Z.land (Z.land t rm1 * baseInv ctx) rm1 * base ctx in
  Z.shiftr (t - c) (shift ctx).

Definition mul (a b : Z) (ctx : MontgomeryReductionContext) : Z :=
  if (a =? 0) || (b =? 0) then 0
  else
    let product := mul_product a b ctx in
    if product >=? base ctx then product - base ctx
    else if product <? 0 then product + base ctx
    else product.

Definition sqr (n : Z) (ctx : MontgomeryReductionContext) : Z :=
  Z.rem (mul n n ctx) (base ctx).

(** [for (let i = 0n, x = n; i < expLen; ++i, x = sqr(x, ctx))], with [k]
    iterations left. *)
Fixpoint pow_loop (k : nat) (exp : Z) (ctx : MontgomeryReductionContext)
    (i x result : Z) : Z :=
  match k with
  | O => result
  | S k' =>
      let result1 :=
        if truthy (Z.land exp (Z.shiftl 1 i)) then mul result x ctx else result in
      pow_loop k' exp ctx (i + 1) (sqr x ctx) result1
  end.

Definition pow (n exp : Z) (ctx : MontgomeryReductionContext) : Z :=
  let expLen := bitLength exp in
  pow_loop (Z.to_nat expLen) exp ctx 0 n (reduce 1 ctx).

End Montgomery.

Module MillerRabin.

(** *** bn.js

    [testPrimality] computes on bn.js big numbers, modelled as [Z].  Of the
    library it uses the constructor, the comparisons [ltn], [gtn], [lt],
    [eqn], [eq] and the operations below; [div] truncates and [mod] takes the
    sign of the dividend, as the bigint operators do. *)

(** A finite JavaScript number, as the fraction it is. *)
Record js_number : Set := mkNumber {
  numerator : Z;
  denominator : positive
}.

(** The argument [n] of [testPrimality]: a bn.js number holding the integer
    [z] (of any size and sign), a finite number (the documented type of [n]
    is [number|BN]), or [null].  Digit strings, [NaN], the infinities and
    other values are left out of the model. *)
Inductive js_input : Set :=
  | JsInteger (z : Z)
  | JsNumber (number : js_number)
  | JsNull.

(** A bn.js number: an integer, or the number without words that
    [new BN(null)] is. *)
Inductive BN : Set :=
  | BN_of (z : Z)
  | BN_empty.

(** [_initNumber(number)]: the sign is set aside; a magnitude below [2 ^ 53]
    is stored as the words of its integer part (by [number & 0x3ffffff] and
    [(number / 0x4000000) & 0x3ffffff]); on any other magnitude
    [assert(number < 0x20000000000000)] throws. *)
Definition BN_initNumber (number : js_number) : exn + BN :=
  if Z.abs (numerator number) <? 2 ^ 53 * Z.pos (denominator number)
  then inr (BN_of (Z.quot (numerator number) (Z.pos (denominator number))))
  else inl (Error "Assertion failed").

(** [new BN(n)]: a bn.js number is returned as it is, a number goes through
    [_initNumber], and for [null] nothing is initialised. *)
Definition BN_new (n : js_input) : exn + BN :=
  match n with
  | JsInteger z => inr (BN_of z)
  | JsNumber number => BN_initNumber number
  | JsNull => inr BN_empty
  end.

(** [bitLength()]: the number of bits of the magnitude, 0 for zero. *)
Definition BN_bitLength (n : Z) : Z :=
  match n with
  | Z0 => 0
  | Zpos p | Zneg p => Z.pos (Pos.size p)
  end.

Fixpoint pos_zeroBits (p : positive) : Z :=
  match p with
  | xO q => 1 + pos_zeroBits q
  | _ => 0
  end.

(** [zeroBits()]: the number of trailing zero bits, 0 for zero. *)
Definition BN_zeroBits (n : Z) : Z :=
  match n with
  | Z0 => 0
  | Zpos p | Zneg p => pos_zeroBits p
  end.

(** [new BN(bits, 2)]: the number written by a string of binary digits. *)
Definition BN_of_bits (bits : list bool) : Z :=
  fold_left (fun acc (b : bool) => 2 * acc + Z.b2z b) bits 0.

(** *** [MillerRabinResult] and the promise returned by [testPrimality] *)

Record MillerRabinResult : Set := mkResult {
  n : Z;
  probablePrime : bool;
  witness : option Z
}.

Inductive Promise : Set :=
  | Resolved (result : MillerRabinResult)
  | Rejected (err : exn).

(** How one round of the outer loop ends: with the next round ([continue], or
    the end of the body after the inner [break]), or with [probablePrime =
    false; witness = base] and the end of the outer loop ([break outer], or
    the [break] under [i === r]). *)
Inductive round_exit : Set := NextRound | Composite.

(** How the inner loop ends. *)
Inductive inner_exit : Set := BreakOuter | Break | Finished.

(** [for (i = 0; i < r; i++) { x = x.sqr().mod(n); ... }] with [k] iterations
    left; the value is [i] on exit and the way the loop was left. *)
Fixpoint squaring_loop (k : nat) (n nSub i x : Z) : Z * inner_exit :=
  match k with
  | O => (i, Finished)
  | S k' =>
      let x1 := Z.rem (x * x) n in
      if x1 =? 1 then (i, BreakOuter)
      else if x1 =? nSub then (i, Break)
      else squaring_loop k' n nSub (i + 1) x1
  end.

(** The body of the outer loop after [base] has been selected. *)
Definition round_body (n nSub r d base : Z) : round_exit :=
  let x := Z.rem (base ^ d) n in
  if (x =? 1) || (x =? nSub) then NextRound
  else
    let '(i, exit) := squaring_loop (Z.to_nat r) n nSub 0 x in
    match exit with
    | BreakOuter => Composite
    | Break | Finished => if i =? r then Composite else NextRound
    end.

Section Random.

(** The randomness: [random k] is the string of binary digits that the
    [k]-th evaluation of [Math.random().toString(2).substring(2, 50)] yields.
    The number of evaluations made so far is threaded through the
    computation. *)
Variable random : nat -> list bool.

(** [while (bits.length < numBits) { bits += ...; }] *)
Fixpoint getRandomBitString_loop (fuel : nat) (numBits : Z) (bits : list bool)
    (calls : nat) : option (list bool * nat) :=
  match fuel with
  | O => None
  | S fuel' =>
      if Z.of_nat (List.length bits) <? numBits
      then getRandomBitString_loop fuel' numBits (bits ++ random calls) (S calls)
      else Some (firstn (Z.to_nat numBits) bits, calls)
  end.

Definition getRandomBitString (fuel : nat) (numBits : Z) (calls : nat)
    : option (list bool * nat) :=
  getRandomBitString_loop fuel numBits [] calls.

(** [do { base = new BN(getRandomBitString(nBits), 2); }
     while (!base.gtn(2) || !base.lt(nSub));] *)
Fixpoint select_base (fuel : nat) (nBits nSub : Z) (calls : nat)
    : option (Z * nat) :=
  match fuel with
  | O => None
  | S fuel' =>
      '(bits, calls1) <- getRandomBitString fuel' nBits calls ;;
      let base := BN_of_bits bits in
      if negb (base >? 2) || negb (base <? nSub)
      then select_base fuel' nBits nSub calls1
      else Some (base, calls1)
  end.

(** [for (let round = 0; round < numRounds; round++) { ... }] with [todo]
    rounds left; the value is [(probablePrime, witness)] on exit. *)
Fixpoint rounds (fuel : nat) (todo : nat) (n nBits nSub r d : Z) (calls : nat)
    : option (bool * option Z * nat) :=
  match todo with
  | O => Some (true, None, calls)
  | S todo' =>
      '(base, calls1) <- select_base fuel nBits nSub calls ;;
      match round_body n nSub r d base with
      | NextRound => rounds fuel todo' n nBits nSub r d calls1
      | Composite => Some (false, Some base, calls1)
      end
  end.

(** [testPrimality(n, numRounds)]; the caller's default for [numRounds] is 2.
    The value is the settled promise, [None] while the computation is still
    running when the fuel is spent. *)
Definition testPrimality (fuel : nat) (n : js_input) (numRounds : Z)
    (calls : nat) : option (Promise * nat) :=
  match BN_new n with
  | inl err => Some (Rejected err, calls)
  | inr BN_empty =>
      (* [n.ltn(2)] reads [words[0]] of a number without words *)
      Some (Rejected
              (TypeError "Cannot read properties of null (reading '0')"),
            calls)
  | inr (BN_of n) =>
      if n <? 2 then Some (Resolved (mkResult n false None), calls)
      else if n <? 4 then Some (Resolved (mkResult n true None), calls)
      else
        let nBits := BN_bitLength n in
        let nSub := n - 1 in
        let r := BN_zeroBits nSub in
        let d := Z.quot nSub (2 ^ r) in
        '(probablePrime, witness, calls1) <-
          rounds fuel (Z.to_nat numRounds) n nBits nSub r d calls ;;
        Some (Resolved (mkResult n probablePrime witness), calls1)
  end.

(** The bases selected by [j] consecutive runs of the selection loop. *)
Fixpoint selected_bases (fuel : nat) (j : nat) (nBits nSub : Z) (calls : nat)
    : option (list Z * nat) :=
  match j with
  | O => Some ([], calls)
  | S j' =>
      '(base, calls1) <- select_base fuel nBits nSub calls ;;
      '(bases, calls2) <- selected_bases fuel j' nBits nSub calls1 ;;
      Some (base :: bases, calls2)
  end.

End Random.

(** The [width] binary digits of [v], most significant first: the draw that
    makes [new BN(bits, 2)] equal to [v]. *)
Fixpoint to_bits (width : nat) (v : Z) : list bool :=
  match width with
  | O => []
  | S width' => to_bits width' (v / 2) ++ [Z.odd v]
  end.

(** Two draws of five digits: the number 7, then the number 3 for ever. *)
Definition draws_7_then_3 (k : nat) : list bool :=
  match k with
  | O => [false; false; true; true; true]
  | _ => [false; false; false; true; true]
  end.

(** The number [z], and the integer part of a number. *)
Definition js_integer (z : Z) : js_number := mkNumber z 1.

Definition integer_part (number : js_number) : Z :=
  Z.quot (numerator number) (Z.pos (denominator number)).

(** What a round of [testPrimality] on [n >= 4] does with [base]. *)
Definition round_of (n base : Z) : round_exit :=
  let nSub := n - 1 in
  let r := BN_zeroBits nSub in
  round_body n nSub r (Z.quot nSub (2 ^ r)) base.

End MillerRabin.

(** ** Reference algorithms the helper module is compared with *)

Module Reference.

(** The Euclidean algorithm: [gcd(a, b) = gcd(b, a mod b)] until [b = 0]. *)
Fixpoint euclid (steps : nat) (a b : Z) : Z :=
  match steps with
  | O => a
  | S steps' => if b =? 0 then a else euclid steps' b (a mod b)
  end.

Definition euclid_gcd (a b : Z) : Z := euclid (S (Z.to_nat b)) a b.

(** Modular exponentiation without Montgomery forms. *)
Definition modpow (a e m : Z) : Z := (a ^ e) mod m.

End Reference.

(** ** Vocabulary of the statements *)

(** Congruence modulo [m]. *)
Definition cong (m a b : Z) : Prop := a mod m = b mod m.

(** [x] is the Montgomery form of [v] in the context [ctx]: the
    representative of [v * r] in [[0, base)]. *)
Definition montgomery_form (ctx : Montgomery.MontgomeryReductionContext)
    (x v : Z) : Prop :=
  (0 <= x < Montgomery.base ctx) /\
  cong (Montgomery.base ctx) x (v * Montgomery.r ctx).

#[global] Instance cong_equivalence (m : Z) : Equivalence (cong m) :=
  eqm_setoid m.
#[global] Instance cong_mul (m : Z) :
  Proper (cong m ==> cong m ==> cong m) Z.mul := Zmult_eqm m.
#[global] Instance cong_add (m : Z) :
  Proper (cong m ==> cong m ==> cong m) Z.add := Zplus_eqm m.
#[global] Instance cong_sub (m : Z) :
  Proper (cong m ==> cong m ==> cong m) Z.sub := Zminus_eqm m.

(** The residue of [b ^ (d * 2 ^ j)] modulo [n]: the value of [x] in a round
    of the tester after [j] squarings. *)
Definition power_residue (n b d j : Z) : Z := (b ^ (d * 2 ^ j)) mod n.

(** ** Bit operations on bigints *)

Section Bits.

Lemma land_1_mod (a : Z) : Z.land a 1 = a mod 2.
Proof.
  change 1 with (Z.ones 1) at 1. now rewrite Z.land_ones by lia.
Qed.

Lemma truthy_land_1 (a : Z) : truthy (Z.land a 1) = Z.odd a.
Proof.
  unfold truthy. rewrite land_1_mod, Zmod_odd. now destruct (Z.odd a).
Qed.

Lemma shiftr_1_div (a : Z) : Z.shiftr a 1 = a / 2.
Proof.
  now rewrite Z.shiftr_div_pow2 by lia.
Qed.

Lemma shiftl_1_pow (k : Z) : 0 <= k -> Z.shiftl 1 k = 2 ^ k.
Proof.
  intros Hk. rewrite Z.shiftl_mul_pow2 by assumption. lia.
Qed.

Lemma land_pow_minus_1 (a k : Z) : 0 <= k -> Z.land a (2 ^ k - 1) = a mod 2 ^ k.
Proof.
  intros Hk. rewrite <- Z.land_ones by assumption.
  now rewrite Z.ones_equiv, <- Z.sub_1_r.
Qed.

Lemma truthy_land_bit (a i : Z) :
  0 <= i -> truthy (Z.land a (Z.shiftl 1 i)) = Z.testbit a i.
Proof.
  intros Hi. unfold truthy. rewrite shiftl_1_pow by assumption.
  destruct (Z.testbit a i) eqn:Hb.
  - apply negb_true_iff, Z.eqb_neq. intros H0.
    assert (Ht : Z.testbit (Z.land a (2 ^ i)) i = true)
      by now rewrite Z.land_spec, Hb, Z.pow2_bits_true.
    rewrite H0, Z.bits_0 in Ht. discriminate.
  - apply negb_false_iff, Z.eqb_eq, Z.bits_inj'. intros k Hk.
    rewrite Z.land_spec, Z.bits_0.
    destruct (Z.eq_dec i k) as [<- | Hne].
    + now rewrite Hb.
    + rewrite (Z.pow2_bits_false i k) by assumption. apply andb_false_r.
Qed.

Lemma odd_even_half (a : Z) : Z.odd a = false -> a = 2 * (a / 2).
Proof.
  intros Ho. pose proof (Z.div_mod a 2 ltac:(lia)) as H.
  rewrite Zmod_odd, Ho in H. lia.
Qed.

End Bits.

(** ** Congruences *)

Lemma cong_of_multiple (m a b q : Z) : a - b = q * m -> cong m a b.
Proof.
  intros H. apply Z.cong_iff_ex. now exists q.
Qed.

Lemma cong_mod (m a : Z) : cong m (a mod m) a.
Proof. apply Zmod_eqm. Qed.

Lemma cong_pow (m a b e : Z) : cong m a b -> cong m (a ^ e) (b ^ e).
Proof.
  intros H. destruct (Z.le_gt_cases 0 e) as [He | He].
  - pattern e. apply natlike_ind; [reflexivity | | exact He].
    intros k Hk IH. rewrite !Z.pow_succ_r by assumption. now rewrite IH, H.
  - now rewrite !Z.pow_neg_r by assumption.
Qed.

(** ** The reduction context *)

Module ContextFacts.
Import Montgomery.

Lemma length_pos_toString2 (p : positive) (acc : string) :
  String.length (pos_toString2 p acc) = (Pos.size_nat p + String.length acc)%nat.
Proof.
  revert acc. induction p as [q IH | q IH | ]; intros acc; simpl.
  - rewrite IH. simpl. lia.
  - rewrite IH. simpl. lia.
  - reflexivity.
Qed.

Lemma pos_lt_pow_size_nat (p : positive) :
  Z.pos p < 2 ^ Z.of_nat (Pos.size_nat p).
Proof.
  induction p as [q IH | q IH | ]; simpl Pos.size_nat;
    rewrite ?Nat2Z.inj_succ, ?Z.pow_succ_r by lia; lia.
Qed.

Lemma bitLength_positive (n : Z) : 1 <= bitLength n.
Proof.
  unfold bitLength. destruct n as [ | p | p]; simpl toString2.
  - simpl. lia.
  - rewrite length_pos_toString2. destruct p; simpl Pos.size_nat; lia.
  - simpl String.length. lia.
Qed.

Lemma bitLength_bound (n : Z) : 0 <= n -> n < 2 ^ bitLength n.
Proof.
  intros Hn. unfold bitLength. destruct n as [ | p | p]; simpl toString2.
  - simpl. lia.
  - rewrite length_pos_toString2. simpl String.length.
    rewrite Nat.add_0_r. apply pos_lt_pow_size_nat.
  - lia.
Qed.

(** Each iteration of [invert] halves an even number, so the loop divides
    by two [k] times modulo the odd [base]. *)
Lemma invert_loop_congruence (k : nat) (m inv : Z) :
  Z.odd m = true ->
  exists q, invert_loop k m inv * 2 ^ Z.of_nat k - inv = q * m.
Proof.
  intros Hm. revert inv. induction k as [ | k IH]; intros inv.
  - exists 0. simpl. lia.
  - cbn [invert_loop]. rewrite truthy_land_1, shiftr_1_div.
    set (inv1 := if Z.odd inv then inv + m else inv).
    assert (Heven : Z.odd inv1 = false).
    { subst inv1. destruct (Z.odd inv) eqn:Ho; [ | exact Ho].
      now rewrite Z.odd_add, Ho, Hm. }
    destruct (IH (inv1 / 2)) as [q Hq].
    pose proof (odd_even_half inv1 Heven) as Hhalf.
    rewrite Nat2Z.inj_succ, Z.pow_succ_r by lia.
    subst inv1. destruct (Z.odd inv).
    + exists (2 * q + 1). lia.
    + exists (2 * q). lia.
Qed.

Lemma invert_loop_range (k : nat) (m inv : Z) :
  Z.odd m = true -> 0 < inv <= m -> 0 < invert_loop k m inv <= m.
Proof.
  intros Hm. revert inv. induction k as [ | k IH]; intros inv Hinv.
  - exact Hinv.
  - cbn [invert_loop]. rewrite truthy_land_1, shiftr_1_div.
    apply IH. destruct (Z.odd inv) eqn:Ho.
    + assert (Z.odd (inv + m) = false) as He by now rewrite Z.odd_add, Ho, Hm.
      pose proof (odd_even_half _ He). lia.
    + pose proof (odd_even_half _ Ho). lia.
Qed.

(** The fields of a context, as [reductionContextFor] sets them. *)
Lemma reductionContextFor_fields (m : Z) (ctx : MontgomeryReductionContext) :
  reductionContextFor m = inr ctx ->
  Z.odd m = true /\
  base ctx = m /\
  shift ctx = bitLength m + 1 /\
  r ctx = 2 ^ shift ctx /\
  rInv ctx = invert (shift ctx) m /\
  baseInv ctx = r ctx - Z.rem (Z.quot (rInv ctx * r ctx - 1) m) (r ctx).
Proof.
  unfold reductionContextFor. rewrite truthy_land_1.
  destruct (Z.odd m) eqn:Ho; simpl negb; cbv iota; [ | discriminate].
  intros [= <-]. cbn [base shift r rInv baseInv].
  pose proof (bitLength_positive m).
  rewrite shiftl_1_pow by lia. repeat split.
Qed.

Lemma reductionContextFor_odd (m : Z) :
  Z.odd m = true -> exists ctx, reductionContextFor m = inr ctx.
Proof.
  intros Ho. unfold reductionContextFor. rewrite truthy_land_1, Ho.
  eexists. reflexivity.
Qed.

Lemma context_shift_positive (m : Z) (ctx : MontgomeryReductionContext) :
  reductionContextFor m = inr ctx -> 2 <= shift ctx.
Proof.
  intros H. apply reductionContextFor_fields in H.
  destruct H as (_ & _ & -> & _). pose proof (bitLength_positive m). lia.
Qed.

Lemma context_rInv_congruence (m : Z) (ctx : MontgomeryReductionContext) :
  reductionContextFor m = inr ctx ->
  exists q, rInv ctx * r ctx - 1 = q * m.
Proof.
  intros H. pose proof (context_shift_positive m ctx H) as Hs.
  apply reductionContextFor_fields in H.
  destruct H as (Ho & _ & _ & -> & -> & _).
  unfold invert.
  destruct (invert_loop_congruence (Z.to_nat (shift ctx)) m 1 Ho) as [q Hq].
  rewrite Z2Nat.id in Hq by lia. now exists q.
Qed.

Lemma context_baseInv_congruence (m : Z) (ctx : MontgomeryReductionContext) :
  reductionContextFor m = inr ctx ->
  exists q, m * baseInv ctx - 1 = q * r ctx.
Proof.
  intros H. destruct (context_rInv_congruence m ctx H) as [k Hk].
  apply reductionContextFor_fields in H.
  destruct H as (Ho & _ & _ & _ & _ & ->).
  assert (Hm : m <> 0) by (intros ->; discriminate).
  rewrite Hk, Z.quot_mul by assumption.
  pose proof (Z.quot_rem' k (r ctx)) as Hqr.
  exists (m + m * Z.quot k (r ctx) - rInv ctx).
  replace (Z.rem k (r ctx)) with (k - r ctx * Z.quot k (r ctx)) by lia.
  lia.
Qed.

End ContextFacts.

(** ** Montgomery arithmetic in a context *)

Module ArithmeticFacts.
Import Montgomery ContextFacts.

Section InContext.

Variables (m : Z) (ctx : MontgomeryReductionContext).
Hypothesis Hctx : reductionContextFor m = inr ctx.
Hypothesis Hm : 0 < m.

Lemma ctx_base : base ctx = m.
Proof. now apply reductionContextFor_fields in Hctx. Qed.

Lemma ctx_shift : 2 <= shift ctx.
Proof. exact (context_shift_positive m ctx Hctx). Qed.

Lemma ctx_r : r ctx = 2 ^ shift ctx.
Proof. now apply reductionContextFor_fields in Hctx. Qed.

Lemma ctx_r_large : 2 * m < r ctx.
Proof.
  rewrite ctx_r. apply reductionContextFor_fields in Hctx.
  destruct Hctx as (_ & _ & -> & _).
  pose proof (bitLength_positive m). pose proof (bitLength_bound m ltac:(lia)).
  rewrite Z.pow_add_r, Z.pow_1_r by lia. lia.
Qed.

Lemma ctx_rInv_range : 0 < rInv ctx <= m.
Proof.
  apply reductionContextFor_fields in Hctx.
  destruct Hctx as (Ho & _ & _ & _ & -> & _).
  apply invert_loop_range; [exact Ho | lia].
Qed.

Lemma ctx_r_rInv : cong m (r ctx * rInv ctx) 1.
Proof.
  destruct (context_rInv_congruence m ctx Hctx) as [q Hq].
  apply (cong_of_multiple m _ _ q). lia.
Qed.

Lemma ctx_base_baseInv : cong (r ctx) (m * baseInv ctx) 1.
Proof.
  destruct (context_baseInv_congruence m ctx Hctx) as [q Hq].
  now apply (cong_of_multiple (r ctx) _ _ q).
Qed.

(** [reduce] and [invReduce] on non-negative numbers are the mathematical
    remainders. *)
Lemma reduce_mod (v : Z) : 0 <= v -> reduce v ctx = (v * r ctx) mod m.
Proof.
  intros Hv. unfold reduce. pose proof ctx_shift.
  rewrite ctx_base, ctx_r, Z.shiftl_mul_pow2 by lia.
  apply Z.rem_mod_nonneg; [ | exact Hm].
  apply Z.mul_nonneg_nonneg; [exact Hv | ]. apply Z.pow_nonneg. lia.
Qed.

Lemma invReduce_mod (x : Z) : 0 <= x -> invReduce x ctx = (x * rInv ctx) mod m.
Proof.
  intros Hx. unfold invReduce. rewrite ctx_base.
  apply Z.rem_mod_nonneg; [ | exact Hm].
  pose proof ctx_rInv_range. apply Z.mul_nonneg_nonneg; lia.
Qed.

Lemma reduce_form (v : Z) : 0 <= v -> montgomery_form ctx (reduce v ctx) v.
Proof.
  intros Hv. unfold montgomery_form. rewrite ctx_base, reduce_mod by exact Hv.
  split; [apply Z.mod_pos_bound; exact Hm | apply cong_mod].
Qed.

Lemma invReduce_form (x v : Z) :
  montgomery_form ctx x v -> invReduce x ctx = v mod m.
Proof.
  unfold montgomery_form. rewrite ctx_base. intros [Hx Hc].
  rewrite invReduce_mod by lia.
  change (cong m (x * rInv ctx) v).
  rewrite Hc, <- Z.mul_assoc, ctx_r_rInv. now rewrite Z.mul_1_r.
Qed.

(** The reduction step: [t - c] is an exact multiple of [r], so the shift
    loses nothing. *)
Lemma mul_product_exact (x y : Z) :
  exists q, 0 <= q < r ctx /\ x * y - q * m = r ctx * mul_product x y ctx.
Proof.
  pose proof ctx_shift as Hs. pose proof ctx_r_large as Hr.
  unfold mul_product. rewrite ctx_base.
  set (t := x * y).
  rewrite Z.shiftr_div_pow2 by lia. rewrite <- ctx_r.
  assert (Hland : forall a, Z.land a (r ctx - 1) = a mod r ctx).
  { intros a. rewrite ctx_r. apply land_pow_minus_1. lia. }
  rewrite !Hland.
  set (q := (t mod r ctx * baseInv ctx) mod r ctx).
  exists q. split; [apply Z.mod_pos_bound; lia | ].
  assert (Hc : cong (r ctx) (t - q * m) 0).
  { subst q. rewrite cong_mod, cong_mod.
    rewrite <- Z.mul_assoc, (Z.mul_comm (baseInv ctx) m), ctx_base_baseInv.
    apply (cong_of_multiple _ _ _ 0). lia. }
  apply Z.cong_iff_ex in Hc. destruct Hc as [k Hk].
  rewrite Z.sub_0_r in Hk. rewrite Hk, Z.div_mul by lia. lia.
Qed.

Lemma mul_product_range (x y : Z) :
  0 <= x < m -> 0 <= y < m -> - m < mul_product x y ctx < m.
Proof.
  intros Hx Hy. pose proof ctx_r_large as Hr.
  destruct (mul_product_exact x y) as (q & Hq & He).
  assert (0 <= x * y) by (apply Z.mul_nonneg_nonneg; lia).
  assert (x * y < m * m) by nia.
  split; nia.
Qed.

Lemma mul_spec (x y : Z) :
  0 <= x < m -> 0 <= y < m ->
  0 <= mul x y ctx < m /\ cong m (mul x y ctx * r ctx) (x * y).
Proof.
  intros Hx Hy. pose proof (mul_product_range x y Hx Hy) as Hu.
  destruct (mul_product_exact x y) as (q & Hq & He).
  unfold mul. rewrite ctx_base.
  destruct ((x =? 0) || (y =? 0)) eqn:Hz.
  - split; [lia | ]. apply (cong_of_multiple _ _ _ 0).
    apply orb_true_iff in Hz. destruct Hz as [Hz | Hz];
      apply Z.eqb_eq in Hz; subst; lia.
  - destruct (Z.geb_spec (mul_product x y ctx) m) as [Hge | Hlt]; [lia | ].
    destruct (Z.ltb_spec (mul_product x y ctx) 0) as [Hneg | Hpos].
    + split; [lia | ]. apply (cong_of_multiple _ _ _ (r ctx - q)). lia.
    + split; [lia | ]. apply (cong_of_multiple _ _ _ (- q)). lia.
Qed.

Lemma cancel_r (a b : Z) : cong m (a * r ctx) (b * r ctx) -> cong m a b.
Proof.
  intros H.
  assert (Ha : cong m a (a * r ctx * rInv ctx))
    by (rewrite <- Z.mul_assoc, ctx_r_rInv; now rewrite Z.mul_1_r).
  assert (Hb : cong m b (b * r ctx * rInv ctx))
    by (rewrite <- Z.mul_assoc, ctx_r_rInv; now rewrite Z.mul_1_r).
  now rewrite Ha, Hb, H.
Qed.

Lemma mul_form (x y v w : Z) :
  montgomery_form ctx x v -> montgomery_form ctx y w ->
  montgomery_form ctx (mul x y ctx) (v * w).
Proof.
  unfold montgomery_form. rewrite ctx_base. intros [Hx Hxv] [Hy Hyw].
  destruct (mul_spec x y Hx Hy) as [Hrange Hc].
  split; [exact Hrange | ]. apply cancel_r.
  rewrite Hc, Hxv, Hyw. apply (cong_of_multiple _ _ _ 0). lia.
Qed.

Lemma sqr_form (x v : Z) :
  montgomery_form ctx x v -> montgomery_form ctx (sqr x ctx) (v * v).
Proof.
  intros H. pose proof (mul_form x x v v H H) as Hsq.
  unfold sqr. rewrite ctx_base.
  destruct Hsq as [Hrange Hc]. rewrite ctx_base in Hrange.
  rewrite Z.rem_mod_nonneg, Z.mod_small by lia.
  split; [now rewrite ctx_base | exact Hc].
Qed.

(** Exponentiation by squaring: after the bits below [i] the accumulator
    holds the power for the low [i] bits of the exponent, and [x] the
    [2 ^ i]-th power. *)
Lemma mod_pow2_succ (e i : Z) :
  0 <= i -> e mod 2 ^ (i + 1) = e mod 2 ^ i + 2 ^ i * Z.b2z (Z.testbit e i).
Proof.
  intros Hi. rewrite Z.pow_add_r, Z.pow_1_r by lia.
  rewrite Z.rem_mul_r by lia. now rewrite Z.testbit_spec' by assumption.
Qed.

Lemma pow_loop_form (a e : Z) (k : nat) :
  forall i x result,
    0 <= i ->
    montgomery_form ctx x (a ^ (2 ^ i)) ->
    montgomery_form ctx result (a ^ (e mod 2 ^ i)) ->
    montgomery_form ctx (pow_loop k e ctx i x result)
      (a ^ (e mod 2 ^ (i + Z.of_nat k))).
Proof.
  induction k as [ | k IH]; intros i x result Hi Hx Hres.
  - simpl. now rewrite Z.add_0_r.
  - cbn [pow_loop]. rewrite truthy_land_bit by assumption.
    replace (i + Z.of_nat (S k)) with (i + 1 + Z.of_nat k) by lia.
    assert (Hpi : 0 < 2 ^ i) by (apply Z.pow_pos_nonneg; lia).
    assert (Hlow : 0 <= e mod 2 ^ i) by (apply Z.mod_pos_bound; lia).
    apply IH; [lia | | ].
    + replace (a ^ (2 ^ (i + 1))) with (a ^ (2 ^ i) * a ^ (2 ^ i)).
      * now apply sqr_form.
      * rewrite <- Z.pow_add_r by lia. f_equal.
        rewrite Z.pow_add_r, Z.pow_1_r by lia. lia.
    + rewrite mod_pow2_succ by assumption.
      destruct (Z.testbit e i); simpl Z.b2z.
      * rewrite Z.mul_1_r, Z.pow_add_r by lia. now apply mul_form.
      * now rewrite Z.mul_0_r, Z.add_0_r.
Qed.

Lemma pow_form (x a e : Z) :
  0 <= e ->
  montgomery_form ctx x a ->
  montgomery_form ctx (pow x e ctx) (a ^ e).
Proof.
  intros He Hx. unfold pow.
  pose proof (bitLength_positive e) as Hlen.
  pose proof (bitLength_bound e He) as Hbound.
  pose proof (pow_loop_form a e (Z.to_nat (bitLength e)) 0 x (reduce 1 ctx))
    as H.
  rewrite Z2Nat.id, Z.add_0_l, (Z.mod_small e (2 ^ bitLength e)) in H by lia.
  apply H; [lia | | ].
  - now rewrite Z.pow_0_r, Z.pow_1_r.
  - rewrite Z.pow_0_r, Z.mod_1_r, Z.pow_0_r. apply reduce_form. lia.
Qed.

End InContext.

(** *** The claims about the engine *)

(** C6 (round trip): for every odd modulus [m > 2], in the context built by
    [reductionContextFor m], [invReduce (reduce x) = x mod m] for every [x]
    in [[0, m)], which is [x] itself. *)
Theorem invReduce_reduce (m : Z) :
  Z.odd m = true -> 2 < m ->
  exists ctx, reductionContextFor m = inr ctx /\
    forall x, 0 <= x < m ->
      invReduce (reduce x ctx) ctx = x mod m /\
      invReduce (reduce x ctx) ctx = x.
Proof.
  intros Ho Hm. destruct (reductionContextFor_odd m Ho) as [ctx Hctx].
  exists ctx. split; [exact Hctx | ]. intros x Hx.
  assert (H : invReduce (reduce x ctx) ctx = x mod m).
  { apply (invReduce_form m ctx Hctx); [lia | ].
    apply (reduce_form m ctx Hctx); lia. }
  split; [exact H | ]. rewrite H. apply Z.mod_small. exact Hx.
Qed.

Lemma invReduce_reduce_witness :
  exists ctx, reductionContextFor 7 = inr ctx /\
    forall x, 0 <= x < 7 ->
      invReduce (reduce x ctx) ctx = x mod 7 /\
      invReduce (reduce x ctx) ctx = x.
Proof.
  apply (invReduce_reduce 7); [reflexivity | lia].
Defined.

(** C4 (homomorphism and correction): for every odd modulus [m > 2] and all
    [a], [b] in [[0, m)], [invReduce (mul (reduce a) (reduce b)) = (a * b)
    mod m]; the product before the correction lies strictly between [- m]
    and [2 * m], so that the single correction of [mul] brings it into
    [[0, m)]. *)
Theorem invReduce_mul_reduce (m : Z) :
  Z.odd m = true -> 2 < m ->
  exists ctx, reductionContextFor m = inr ctx /\
    forall a b, 0 <= a < m -> 0 <= b < m ->
      let x := reduce a ctx in
      let y := reduce b ctx in
      invReduce (mul x y ctx) ctx = (a * b) mod m /\
      - m < mul_product x y ctx < 2 * m /\
      0 <= mul x y ctx < m.
Proof.
  intros Ho Hm. destruct (reductionContextFor_odd m Ho) as [ctx Hctx].
  exists ctx. split; [exact Hctx | ]. intros a b Ha Hb x y.
  assert (Hpos : 0 < m) by lia.
  pose proof (reduce_form m ctx Hctx Hpos a ltac:(lia)) as Hx.
  pose proof (reduce_form m ctx Hctx Hpos b ltac:(lia)) as Hy.
  fold x in Hx. fold y in Hy.
  pose proof (mul_form m ctx Hctx Hpos x y a b Hx Hy) as Hxy.
  destruct Hx as [Hxr _], Hy as [Hyr _].
  rewrite (ctx_base m ctx Hctx) in Hxr, Hyr.
  pose proof (mul_product_range m ctx Hctx Hpos x y Hxr Hyr).
  split; [ | split].
  - now apply (invReduce_form m ctx Hctx Hpos).
  - lia.
  - destruct Hxy as [Hr _]. now rewrite (ctx_base m ctx Hctx) in Hr.
Qed.

Lemma invReduce_mul_reduce_witness :
  exists ctx, reductionContextFor 7 = inr ctx /\
    forall a b, 0 <= a < 7 -> 0 <= b < 7 ->
      let x := reduce a ctx in
      let y := reduce b ctx in
      invReduce (mul x y ctx) ctx = (a * b) mod 7 /\
      - 7 < mul_product x y ctx < 2 * 7 /\
      0 <= mul x y ctx < 7.
Proof.
  apply (invReduce_mul_reduce 7); [reflexivity | lia].
Defined.

(** C5 (exponentiation): for every odd modulus [m > 2], every [a] in
    [[0, m)] and every exponent [e >= 0], [invReduce (pow (reduce a) e)] is
    [a ^ e mod m], the value of the reference modular exponentiation; and
    [pow n 0] is [reduce 1] whatever [n] is. *)
Theorem invReduce_pow_reduce (m : Z) :
  Z.odd m = true -> 2 < m ->
  exists ctx, reductionContextFor m = inr ctx /\
    (forall a e, 0 <= a < m -> 0 <= e ->
       invReduce (pow (reduce a ctx) e ctx) ctx = Reference.modpow a e m) /\
    (forall n, pow n 0 ctx = reduce 1 ctx).
Proof.
  intros Ho Hm. destruct (reductionContextFor_odd m Ho) as [ctx Hctx].
  exists ctx. split; [exact Hctx | ].
  assert (Hpos : 0 < m) by lia. split.
  - intros a e Ha He. unfold Reference.modpow.
    apply (invReduce_form m ctx Hctx Hpos).
    apply (pow_form m ctx Hctx Hpos); [exact He | ].
    apply (reduce_form m ctx Hctx Hpos). lia.
  - intros n. reflexivity.
Qed.

Lemma invReduce_pow_reduce_witness :
  exists ctx, reductionContextFor 7 = inr ctx /\
    (forall a e, 0 <= a < 7 -> 0 <= e ->
       invReduce (pow (reduce a ctx) e ctx) ctx = Reference.modpow a e 7) /\
    (forall n, pow n 0 ctx = reduce 1 ctx).
Proof.
  apply (invReduce_pow_reduce 7); [reflexivity | lia].
Defined.

End ArithmeticFacts.

(** *** The claims about the construction of a context *)

Module ContextTheorems.
Import Montgomery ContextFacts.

Lemma reductionContextFor_body_odd (m : Z) :
  Z.odd m = true ->
  exists baseInv,
    reductionContextFor_body m
    = ([("numBits", bitLength m); ("littleShift", bitLength m + 1);
        ("shift", bitLength m + 1); ("r", Z.shiftl 1 (bitLength m + 1));
        ("rInv", invert (bitLength m + 1) m); ("baseInv", baseInv)]%string,
       reductionContextFor m).
Proof.
  intros Ho. unfold reductionContextFor_body, reductionContextFor.
  rewrite truthy_land_1, Ho. simpl negb. cbv iota zeta.
  assert (Hm : m <> 0) by (intros ->; discriminate).
  pose proof (bitLength_positive m) as Hlen.
  assert (Hr : Z.shiftl 1 (bitLength m + 1) <> 0).
  { rewrite shiftl_1_pow by lia.
    assert (0 < 2 ^ (bitLength m + 1)) by (apply Z.pow_pos_nonneg; lia).
    lia. }
  unfold bigint_div, bigint_rem.
  destruct (Z.eqb_spec m 0) as [H0 | _]; [contradiction | ].
  destruct (Z.eqb_spec (Z.shiftl 1 (bitLength m + 1)) 0) as [H0 | _];
    [contradiction | ].
  eexists. reflexivity.
Qed.

(** C9 (eager check of the modulus): [reductionContextFor base] throws its
    error, [Error "base must be odd"], if and only if [base] is even, and it
    throws no other error.  Run statement by statement, the function gives
    the same result; for an even [base] it throws before a single constant
    of the body is declared, and for an odd one it declares all six.  The
    order shows at [base = 0]: the statements after the check would there
    declare five constants and throw a [RangeError] for the division by
    [base]; the function throws [Error "base must be odd"] instead. *)
Theorem reductionContextFor_checks_first (m : Z) :
  snd (reductionContextFor_steps m) = reductionContextFor m /\
  (reductionContextFor m = inl (Error "base must be odd") <-> Z.even m = true) /\
  (forall err, reductionContextFor m = inl err -> err = Error "base must be odd") /\
  (Z.even m = true ->
   reductionContextFor_steps m = ([], inl (Error "base must be odd"))) /\
  (Z.even m = false ->
   exists ctx,
     reductionContextFor m = inr ctx /\
     map fst (fst (reductionContextFor_steps m))
     = ["numBits"; "littleShift"; "shift"; "r"; "rInv"; "baseInv"]%string) /\
  reductionContextFor_body 0
  = ([("numBits", 1); ("littleShift", 2); ("shift", 2); ("r", 4);
      ("rInv", 0)]%string,
     inl (RangeError "Division by zero")) /\
  reductionContextFor_steps 0 = ([], inl (Error "base must be odd")).
Proof.
  rewrite <- Z.negb_odd.
  assert (Hsteps : reductionContextFor_steps m
                   = if Z.odd m then reductionContextFor_body m
                     else ([], inl (Error "base must be odd"))).
  { unfold reductionContextFor_steps. rewrite truthy_land_1.
    now destruct (Z.odd m). }
  assert (Hres : Z.odd m = false ->
                 reductionContextFor m = inl (Error "base must be odd")).
  { intros Ho. unfold reductionContextFor. now rewrite truthy_land_1, Ho. }
  rewrite Hsteps. destruct (Z.odd m) eqn:Ho; simpl negb.
  - destruct (reductionContextFor_body_odd m Ho) as [bi Hbody].
    destruct (reductionContextFor_odd m Ho) as [ctx Hctx].
    rewrite Hbody. cbn [fst snd map].
    split; [reflexivity | ]. split; [ | split; [ | split; [ | split]]].
    + rewrite Hctx. split; discriminate.
    + rewrite Hctx. discriminate.
    + discriminate.
    + intros _. exists ctx. split; [exact Hctx | reflexivity].
    + split; reflexivity.
  - rewrite (Hres eq_refl). cbn [snd].
    split; [reflexivity | ]. split; [ | split; [ | split; [ | split]]].
    + split; reflexivity.
    + now intros err [= <-].
    + reflexivity.
    + discriminate.
    + split; reflexivity.
Qed.

(** C1, as amended (invariants of a context): for every odd [base],
    [reductionContextFor base] returns a context whose [base] is the odd
    argument, with [r > base], [rInv * r] congruent to 1 modulo [base], and
    [base * baseInv] congruent to 1 (not to -1) modulo [r]. *)
Theorem reductionContextFor_invariants (m : Z) :
  Z.odd m = true ->
  exists ctx, reductionContextFor m = inr ctx /\
    base ctx = m /\
    Z.odd (base ctx) = true /\
    base ctx < r ctx /\
    cong (base ctx) (rInv ctx * r ctx) 1 /\
    cong (r ctx) (base ctx * baseInv ctx) 1.
Proof.
  intros Ho. destruct (reductionContextFor_odd m Ho) as [ctx Hctx].
  exists ctx. split; [exact Hctx | ].
  destruct (context_rInv_congruence m ctx Hctx) as [q Hq].
  destruct (context_baseInv_congruence m ctx Hctx) as [q' Hq'].
  pose proof (context_shift_positive m ctx Hctx) as Hs.
  pose proof (reductionContextFor_fields m ctx Hctx)
    as (_ & Hb & Hshift & Hr & _).
  rewrite Hb. repeat split.
  - exact Ho.
  - rewrite Hr. destruct (Z.le_gt_cases m 0) as [Hneg | Hpos].
    + assert (0 < 2 ^ shift ctx) by (apply Z.pow_pos_nonneg; lia). lia.
    + pose proof (bitLength_bound m ltac:(lia)) as Hbound.
      pose proof (bitLength_positive m).
      rewrite Hshift, Z.pow_add_r, Z.pow_1_r by lia. lia.
  - now apply (cong_of_multiple _ _ _ q).
  - now apply (cong_of_multiple _ _ _ q').
Qed.

Lemma reductionContextFor_invariants_witness :
  exists ctx, reductionContextFor 3 = inr ctx /\
    base ctx = 3 /\
    Z.odd (base ctx) = true /\
    base ctx < r ctx /\
    cong (base ctx) (rInv ctx * r ctx) 1 /\
    cong (r ctx) (base ctx * baseInv ctx) 1.
Proof.
  apply (reductionContextFor_invariants 3). reflexivity.
Defined.

(** C1, as stated, fails for the modulus 3: the context is
    [{ base = 3; shift = 3; r = 8; rInv = 2; baseInv = 3 }], and
    [3 * 3 = 9] is congruent to 1, not to -1, modulo 8. *)
Lemma reductionContextFor_3_not_minus_one :
  Z.odd 3 = true /\
  exists ctx, reductionContextFor 3 = inr ctx /\
    ctx = mkContext 3 3 8 2 3 /\
    ~ cong (r ctx) (base ctx * baseInv ctx) (-1).
Proof.
  split; [reflexivity | ]. eexists. split; [reflexivity | ].
  split; [reflexivity | ]. unfold cong. simpl. discriminate.
Qed.

End ContextTheorems.

(** ** The binary gcd *)

Module GcdFacts.
Import Montgomery.

Lemma truthy_lor_low_bits (a b : Z) :
  truthy (Z.lor (Z.land a 1) (Z.land b 1)) = Z.odd a || Z.odd b.
Proof.
  rewrite !land_1_mod, !Zmod_odd. now destruct (Z.odd a), (Z.odd b).
Qed.

Lemma gcd_2_odd (d c : Z) : Z.odd c = true -> (d | c) -> Z.gcd d 2 = 1.
Proof.
  intros Hc Hd.
  pose proof (Z.gcd_nonneg d 2) as Hnn.
  pose proof (Z.gcd_divide_l d 2) as Hl.
  pose proof (Z.gcd_divide_r d 2) as Hr.
  assert (Hle : Z.gcd d 2 <= 2) by (apply Z.divide_pos_le; [lia | exact Hr]).
  assert (Hne0 : Z.gcd d 2 <> 0).
  { intros H0. rewrite H0 in Hr. destruct Hr as [k Hk]. lia. }
  assert (Hne2 : Z.gcd d 2 <> 2).
  { intros H2. rewrite H2 in Hl.
    assert (H2c : (2 | c)) by (eapply Z.divide_trans; eassumption).
    destruct H2c as [k ->]. rewrite Z.mul_comm, Z.odd_mul in Hc.
    discriminate. }
  lia.
Qed.

(** Halving an even number does not change its gcd with an odd number. *)
Lemma gcd_half_odd (a c : Z) :
  Z.odd a = false -> Z.odd c = true -> Z.gcd (a / 2) c = Z.gcd a c.
Proof.
  intros Ha Hc. pose proof (odd_even_half a Ha) as Hh.
  symmetry. apply Z.gcd_unique.
  - apply Z.gcd_nonneg.
  - rewrite Hh at 2. apply Z.divide_mul_r, Z.gcd_divide_l.
  - apply Z.gcd_divide_r.
  - intros d Hda Hdc. apply Z.gcd_greatest; [ | exact Hdc].
    rewrite Hh in Hda. apply (Z.gauss d 2 (a / 2) Hda).
    exact (gcd_2_odd d c Hc Hdc).
Qed.

Lemma gcd_strip_spec (fuel : nat) :
  forall a, 0 < a <= Z.of_nat fuel ->
    exists a1, gcd_strip fuel a = Some a1 /\
      Z.odd a1 = true /\ 0 < a1 <= a /\
      (Z.odd a = true -> a1 = a) /\
      (forall c, Z.odd c = true -> Z.gcd a1 c = Z.gcd a c).
Proof.
  induction fuel as [ | fuel IH]; intros a Ha; [lia | ].
  cbn [gcd_strip]. rewrite truthy_land_1, shiftr_1_div.
  destruct (Z.odd a) eqn:Ho; simpl negb; cbv iota.
  - exists a. repeat split; auto; lia.
  - pose proof (odd_even_half a Ho) as Hh.
    destruct (IH (a / 2) ltac:(lia)) as (a1 & He & Ho1 & Hr & _ & Hg).
    exists a1. repeat split; auto; try lia; try discriminate.
    intros c Hc. rewrite (Hg c Hc). now apply gcd_half_odd.
Qed.

Lemma gcd_shared_spec (fuel : nat) :
  forall s a b, 0 < a <= Z.of_nat fuel -> 0 < b ->
    exists k a1 b1, gcd_shared fuel s a b = Some (s + k, a1, b1) /\
      0 <= k /\ a = a1 * 2 ^ k /\ b = b1 * 2 ^ k /\
      0 < a1 <= a /\ 0 < b1 <= b /\
      (Z.odd a1 = true \/ Z.odd b1 = true).
Proof.
  induction fuel as [ | fuel IH]; intros s a b Ha Hb; [lia | ].
  cbn [gcd_shared]. rewrite truthy_lor_low_bits, !shiftr_1_div.
  destruct (Z.odd a || Z.odd b) eqn:Ho; simpl negb; cbv iota.
  - exists 0, a, b. rewrite Z.add_0_r, Z.pow_0_r.
    apply orb_true_iff in Ho. repeat split; auto; lia.
  - apply orb_false_iff in Ho. destruct Ho as [Hoa Hob].
    pose proof (odd_even_half a Hoa) as Hha.
    pose proof (odd_even_half b Hob) as Hhb.
    destruct (IH (s + 1) (a / 2) (b / 2) ltac:(lia) ltac:(lia))
      as (k & a1 & b1 & He & Hk & Ea & Eb & Hra & Hrb & Hodd).
    exists (k + 1), a1, b1.
    rewrite Z.add_assoc, (Z.pow_add_r 2 k 1), Z.pow_1_r by lia.
    replace (s + k + 1) with (s + 1 + k) by lia.
    repeat split; auto; lia.
Qed.

Lemma gcd_loop_spec (fuel : nat) :
  forall a b, 0 < a -> 0 < b -> a + b <= Z.of_nat fuel ->
    Z.odd a = true \/ Z.odd b = true ->
    gcd_loop fuel a b = Some (Z.gcd a b).
Proof.
  induction fuel as [ | fuel IH]; intros a b Ha Hb Hfuel Hodd; [lia | ].
  cbn [gcd_loop]. rewrite Z.gtb_ltb.
  destruct (Z.eqb_spec a b) as [-> | Hne]; simpl negb; cbv iota.
  { simpl. now rewrite Z.gcd_diag_nonneg by lia. }
  destruct (Z.ltb_spec 1 b) as [Hb1 | Hb1]; simpl andb; cbv iota.
  2: { replace b with 1 by lia. now rewrite Z.gcd_1_r. }
  destruct (gcd_strip_spec fuel a ltac:(lia))
    as (a1 & Ea & Hoa1 & Hra & Hsa & Hga).
  destruct (gcd_strip_spec fuel b ltac:(lia))
    as (b1 & Eb & Hob1 & Hrb & Hsb & Hgb).
  rewrite Ea, Eb. cbn [bind].
  assert (Hg : Z.gcd a1 b1 = Z.gcd a b).
  { destruct Hodd as [Hoa | Hob].
    - rewrite (Hsa Hoa), (Z.gcd_comm a b1), (Z.gcd_comm a b).
      now apply Hgb.
    - rewrite (Hsb Hob). now apply Hga. }
  rewrite <- Hg, Z.gtb_ltb.
  destruct (Z.ltb_spec a1 b1) as [Hlt | Hge].
  - rewrite IH by (auto; lia).
    now rewrite Z.gcd_comm, Z.gcd_sub_diag_r.
  - destruct (Z.eqb_spec a1 b1) as [-> | Hne1].
    + now rewrite Z.gcd_diag_nonneg by lia.
    + rewrite IH by (auto; lia).
      now rewrite Z.gcd_comm, Z.gcd_sub_diag_r, Z.gcd_comm.
Qed.

Lemma gcd_positive (fuel : nat) (a b : Z) :
  0 < a -> 0 < b -> a + b <= Z.of_nat fuel ->
  gcd fuel a b = Some (Z.gcd a b).
Proof.
  intros Ha Hb Hfuel. unfold gcd.
  destruct (Z.eqb_spec a b) as [-> | Hne].
  { now rewrite Z.gcd_diag_nonneg by lia. }
  destruct (Z.eqb_spec a 0) as [-> | _]; [lia | ].
  destruct (Z.eqb_spec b 0) as [-> | _]; [lia | ].
  destruct (gcd_shared_spec fuel 0 a b ltac:(lia) Hb)
    as (k & a1 & b1 & He & Hk & Ea & Eb & Hra & Hrb & Hodd).
  rewrite He. cbn [bind].
  rewrite gcd_loop_spec by (auto; lia). cbn [bind].
  rewrite Z.add_0_l, Z.shiftl_mul_pow2 by exact Hk.
  replace (Z.gcd a b) with (Z.gcd (a1 * 2 ^ k) (b1 * 2 ^ k))
    by now rewrite <- Ea, <- Eb.
  rewrite Z.gcd_mul_mono_r_nonneg; [reflexivity | ].
  apply Z.pow_nonneg. lia.
Qed.

Lemma gcd_zero_r (fuel : nat) (a : Z) : gcd fuel a 0 = Some a.
Proof.
  unfold gcd. destruct (Z.eqb_spec a 0) as [-> | Hne]; reflexivity.
Qed.

Lemma gcd_zero_l (fuel : nat) (b : Z) : gcd fuel 0 b = Some b.
Proof.
  unfold gcd. destruct (Z.eqb_spec 0 b) as [<- | Hne]; reflexivity.
Qed.

Lemma gcd_diag (fuel : nat) (a : Z) : gcd fuel a a = Some a.
Proof.
  unfold gcd. now rewrite Z.eqb_refl.
Qed.

Lemma euclid_gcd_spec (steps : nat) :
  forall a b, 0 <= a -> 0 <= b < Z.of_nat steps ->
    Reference.euclid steps a b = Z.gcd a b.
Proof.
  induction steps as [ | steps IH]; intros a b Ha Hb; [lia | ].
  cbn [Reference.euclid].
  destruct (Z.eqb_spec b 0) as [-> | Hne].
  - rewrite Z.gcd_0_r. lia.
  - pose proof (Z.mod_pos_bound a b ltac:(lia)).
    rewrite IH by lia.
    now rewrite Z.gcd_comm, Z.gcd_mod, Z.gcd_comm by exact Hne.
Qed.

(** C10 (gcd laws): with fuel for [a + b] iterations, for all [a, b >= 0]
    [gcd a b] and [gcd b a] return the same number; [gcd a 0 = a] and
    [gcd a a = a]; and for [a, b > 0] the result divides both, is divided by
    every common divisor, and is the number the Euclidean algorithm
    computes. *)
Theorem gcd_laws (fuel : nat) (a b : Z) :
  0 <= a -> 0 <= b -> a + b <= Z.of_nat fuel ->
  (exists g, gcd fuel a b = Some g /\ gcd fuel b a = Some g) /\
  gcd fuel a 0 = Some a /\
  gcd fuel a a = Some a /\
  (0 < a -> 0 < b ->
   exists g, gcd fuel a b = Some g /\
     (g | a) /\ (g | b) /\
     (forall d, (d | a) -> (d | b) -> (d | g)) /\
     g = Reference.euclid_gcd a b).
Proof.
  intros Ha Hb Hfuel. repeat split.
  - destruct (Z.eq_dec a 0) as [-> | Ha0].
    { exists b. now rewrite gcd_zero_l, gcd_zero_r. }
    destruct (Z.eq_dec b 0) as [-> | Hb0].
    { exists a. now rewrite gcd_zero_l, gcd_zero_r. }
    exists (Z.gcd a b). split.
    + apply gcd_positive; lia.
    + rewrite Z.gcd_comm. apply gcd_positive; lia.
  - apply gcd_zero_r.
  - apply gcd_diag.
  - intros Ha0 Hb0. exists (Z.gcd a b). repeat split.
    + now apply gcd_positive.
    + apply Z.gcd_divide_l.
    + apply Z.gcd_divide_r.
    + intros d. apply Z.gcd_greatest.
    + unfold Reference.euclid_gcd. symmetry. apply euclid_gcd_spec; lia.
Qed.

Lemma gcd_laws_witness :
  (exists g, gcd 30 12 18 = Some g /\ gcd 30 18 12 = Some g) /\
  gcd 30 12 0 = Some 12 /\
  gcd 30 12 12 = Some 12 /\
  (0 < 12 -> 0 < 18 ->
   exists g, gcd 30 12 18 = Some g /\
     (g | 12) /\ (g | 18) /\
     (forall d, (d | 12) -> (d | 18) -> (d | g)) /\
     g = Reference.euclid_gcd 12 18).
Proof.
  apply (gcd_laws 30 12 18); lia.
Defined.

End GcdFacts.

(** ** The Miller-Rabin tester *)

Module TesterFacts.
Import MillerRabin.

Section Run.

Variable random : nat -> list bool.

(** *** Selection of the base *)

Lemma select_base_range (fuel : nat) (nBits nSub : Z) :
  forall calls base calls',
    select_base random fuel nBits nSub calls = Some (base, calls') ->
    2 < base < nSub.
Proof.
  induction fuel as [ | fuel IH]; intros calls base calls'; [discriminate | ].
  cbn [select_base].
  destruct (getRandomBitString random fuel nBits calls) as [[bits calls1] | ];
    cbn [bind]; [ | discriminate].
  rewrite Z.gtb_ltb.
  destruct (Z.ltb_spec 2 (BN_of_bits bits)) as [Hlo | Hlo]; simpl negb.
  - destruct (Z.ltb_spec (BN_of_bits bits) nSub) as [Hhi | Hhi]; simpl.
    + intros [= <- _]. lia.
    + apply IH.
  - simpl. apply IH.
Qed.

(** No number lies strictly between 2 and 3: on the candidate 4 the
    selection loop rejects every draw. *)
Lemma select_base_empty_range (fuel : nat) (nBits nSub : Z) :
  nSub <= 3 -> forall calls, select_base random fuel nBits nSub calls = None.
Proof.
  intros Hn. induction fuel as [ | fuel IH]; intros calls; [reflexivity | ].
  cbn [select_base].
  destruct (getRandomBitString random fuel nBits calls) as [[bits calls1] | ];
    cbn [bind]; [ | reflexivity].
  rewrite Z.gtb_ltb.
  destruct (Z.ltb_spec 2 (BN_of_bits bits)) as [Hlo | Hlo]; simpl negb.
  - destruct (Z.ltb_spec (BN_of_bits bits) nSub) as [Hhi | Hhi]; simpl.
    + lia.
    + apply IH.
  - simpl. apply IH.
Qed.

(** *** The rounds *)

Lemma rounds_trace (fuel : nat) (n nBits nSub r d : Z) (todo : nat) :
  forall calls probablePrime witness calls',
    rounds random fuel todo n nBits nSub r d calls
      = Some (probablePrime, witness, calls') ->
    exists bases,
      (List.length bases <= todo)%nat /\
      selected_bases random fuel (List.length bases) nBits nSub calls
        = Some (bases, calls') /\
      match witness with
      | Some w =>
          probablePrime = false /\
          exists earlier,
            bases = earlier ++ [w] /\
            Forall (fun b => round_body n nSub r d b = NextRound) earlier /\
            round_body n nSub r d w = Composite
      | None =>
          probablePrime = true /\
          List.length bases = todo /\
          Forall (fun b => round_body n nSub r d b = NextRound) bases
      end.
Proof.
  induction todo as [ | todo IH]; intros calls pp w calls'; cbn [rounds].
  - intros [= <- <- <-]. exists []. simpl. repeat split; auto.
  - destruct (select_base random fuel nBits nSub calls)
      as [[base calls1] | ] eqn:Hsel; cbn [bind]; [ | discriminate].
    destruct (round_body n nSub r d base) eqn:Hbody.
    + intros Hrun. destruct (IH _ _ _ _ Hrun) as (bases & Hlen & Hsb & Hw).
      exists (base :: bases). split; [simpl; lia | ]. split.
      * simpl. rewrite Hsel. cbn [bind]. rewrite Hsb. reflexivity.
      * destruct w as [w | ].
        -- destruct Hw as (Hpp & earlier & -> & Hall & Hcomp).
           split; [exact Hpp | ]. exists (base :: earlier).
           repeat split; auto.
        -- destruct Hw as (Hpp & Hl & Hall). simpl. repeat split; auto.
    + intros [= <- <- <-]. exists [base]. split; [simpl; lia | ]. split.
      * simpl. rewrite Hsel. reflexivity.
      * split; [reflexivity | ]. exists []. repeat split; auto.
Qed.

End Run.

(** *** The constructor *)

Lemma testPrimality_by_value (random : nat -> list bool) (fuel : nat)
    (input : js_input) (numRounds : Z) (calls : nat) (z : Z) :
  BN_new input = inr (BN_of z) ->
  testPrimality random fuel input numRounds calls
    = testPrimality random fuel (JsInteger z) numRounds calls.
Proof.
  intros H. unfold testPrimality. now rewrite H.
Qed.

Lemma testPrimality_resolved_value (random : nat -> list bool) (fuel : nat)
    (input : js_input) (numRounds : Z) (calls : nat)
    (result : MillerRabinResult) (calls' : nat) :
  testPrimality random fuel input numRounds calls
    = Some (Resolved result, calls') ->
  exists z, BN_new input = inr (BN_of z).
Proof.
  unfold testPrimality.
  destruct (BN_new input) as [err | [z | ]]; try discriminate.
  intros _. now exists z.
Qed.

Lemma BN_new_number (number : js_number) :
  Z.abs (numerator number) < 2 ^ 53 * Z.pos (denominator number) ->
  BN_new (JsNumber number) = inr (BN_of (integer_part number)).
Proof.
  intros H. cbn [BN_new]. unfold BN_initNumber, integer_part.
  destruct (Z.ltb_spec (Z.abs (numerator number))
              (2 ^ 53 * Z.pos (denominator number))); [reflexivity | lia].
Qed.

Lemma BN_new_number_large (number : js_number) :
  2 ^ 53 * Z.pos (denominator number) <= Z.abs (numerator number) ->
  BN_new (JsNumber number) = inl (Error "Assertion failed").
Proof.
  intros H. cbn [BN_new]. unfold BN_initNumber.
  destruct (Z.ltb_spec (Z.abs (numerator number))
              (2 ^ 53 * Z.pos (denominator number))); [lia | reflexivity].
Qed.

Lemma testPrimality_below_2 (random : nat -> list bool) (fuel : nat)
    (z numRounds : Z) (calls : nat) :
  z < 2 ->
  testPrimality random fuel (JsInteger z) numRounds calls
    = Some (Resolved (mkResult z false None), calls).
Proof.
  intros Hz. unfold testPrimality. simpl BN_new. cbv beta iota.
  destruct (Z.ltb_spec z 2); [reflexivity | lia].
Qed.

(** *** Digit strings *)

Lemma BN_of_bits_snoc (bits : list bool) (b : bool) :
  BN_of_bits (bits ++ [b]) = 2 * BN_of_bits bits + Z.b2z b.
Proof.
  unfold BN_of_bits. now rewrite fold_left_app.
Qed.

Lemma length_to_bits (width : nat) :
  forall v, List.length (to_bits width v) = width.
Proof.
  induction width as [ | width IH]; intros v; simpl; [reflexivity | ].
  rewrite length_app, IH. simpl. lia.
Qed.

Lemma BN_of_to_bits (width : nat) :
  forall v, 0 <= v < 2 ^ Z.of_nat width -> BN_of_bits (to_bits width v) = v.
Proof.
  induction width as [ | width IH]; intros v Hv.
  - simpl in *. unfold BN_of_bits. simpl. lia.
  - cbn [to_bits]. rewrite BN_of_bits_snoc.
    rewrite Nat2Z.inj_succ, Z.pow_succ_r in Hv by lia.
    pose proof (Z.div_mod v 2 ltac:(lia)) as Hdm.
    rewrite Zmod_odd in Hdm.
    rewrite IH.
    + destruct (Z.odd v); simpl Z.b2z; lia.
    + split; [apply Z.div_pos; lia | ].
      apply Z.div_lt_upper_bound; lia.
Qed.

Lemma BN_bitLength_bound (n : Z) : 0 < n -> n < 2 ^ BN_bitLength n.
Proof.
  destruct n as [ | p | p]; try lia. intros _. simpl BN_bitLength.
  pose proof (Pos.size_gt p) as H.
  change 2 with (Z.pos 2). rewrite <- Pos2Z.inj_pow. exact H.
Qed.

End TesterFacts.

(** *** The claims about the tester *)

Module TesterTheorems.
Import MillerRabin TesterFacts.

(** C2 (small inputs): for every positive [numRounds], [testPrimality]
    resolves with [probablePrime = false] and [witness = null] for the inputs
    0 and 1; for the input 4 it does not resolve with [probablePrime = false]:
    the base must be greater than 2 and smaller than [n - 1 = 3], so the
    selection loop of the first round never ends and the promise is never
    settled, whatever the random draws are. *)
Theorem testPrimality_4_never_settles (random : nat -> list bool)
    (fuel : nat) (numRounds : Z) (calls : nat) :
  0 < numRounds ->
  testPrimality random fuel (JsInteger 0) numRounds calls
    = Some (Resolved (mkResult 0 false None), calls) /\
  testPrimality random fuel (JsInteger 1) numRounds calls
    = Some (Resolved (mkResult 1 false None), calls) /\
  testPrimality random fuel (JsInteger 4) numRounds calls = None.
Proof.
  intros Hrounds. repeat split.
  unfold testPrimality. simpl.
  destruct (Z.to_nat numRounds) as [ | todo] eqn:Hn; [lia | ].
  cbn [rounds]. rewrite select_base_empty_range by lia. reflexivity.
Qed.

Lemma testPrimality_4_never_settles_witness :
  testPrimality (fun _ => [true; true]) 100 (JsInteger 0) 2 0
    = Some (Resolved (mkResult 0 false None), 0%nat) /\
  testPrimality (fun _ => [true; true]) 100 (JsInteger 1) 2 0
    = Some (Resolved (mkResult 1 false None), 0%nat) /\
  testPrimality (fun _ => [true; true]) 100 (JsInteger 4) 2 0 = None.
Proof.
  apply (testPrimality_4_never_settles (fun _ => [true; true]) 100 2 0). lia.
Defined.

(** C3 (interval of the base): in a round of [testPrimality] for a candidate
    [n >= 5] the base that the selection loop retains lies in [[3, n - 2]],
    and every integer of [[3, n - 2]] is retained for some random draws; the
    base 2 is rejected by [!base.gtn(2)] and is never retained. *)
Theorem select_base_interval (n : Z) :
  5 <= n ->
  (forall random fuel calls base calls',
     select_base random fuel (BN_bitLength n) (n - 1) calls
       = Some (base, calls') ->
     3 <= base <= n - 2) /\
  (forall b, 3 <= b <= n - 2 ->
     exists random fuel calls',
       select_base random fuel (BN_bitLength n) (n - 1) 0 = Some (b, calls')) /\
  (forall random fuel calls calls',
     select_base random fuel (BN_bitLength n) (n - 1) calls
       <> Some (2, calls')).
Proof.
  intros Hn. repeat split.
  - apply select_base_range in H. lia.
  - apply select_base_range in H. lia.
  - intros b Hb.
    pose proof (BN_bitLength_bound n ltac:(lia)) as Hbound.
    assert (Hbits : 0 < BN_bitLength n)
      by (destruct n; simpl; lia).
    set (nBits := BN_bitLength n) in *.
    set (bits := to_bits (Z.to_nat nBits) b).
    assert (Hlen : Z.of_nat (List.length bits) = nBits)
      by (subst bits; rewrite length_to_bits; lia).
    exists (fun _ => bits), 3%nat, 1%nat.
    cbn [select_base getRandomBitString getRandomBitString_loop bind].
    simpl List.length. simpl app.
    destruct (Z.ltb_spec (Z.of_nat 0) nBits) as [_ | Hc]; [ | lia].
    rewrite Hlen, Z.ltb_irrefl.
    replace (Z.to_nat nBits) with (List.length bits) by lia.
    rewrite firstn_all. cbn [bind].
    assert (Hval : BN_of_bits bits = b).
    { subst bits. apply BN_of_to_bits. rewrite Z2Nat.id by lia. lia. }
    rewrite Hval, Z.gtb_ltb.
    destruct (Z.ltb_spec 2 b); [ | lia].
    destruct (Z.ltb_spec b (n - 1)); [ | lia].
    reflexivity.
  - intros random fuel calls calls' H. apply select_base_range in H. lia.
Qed.

Lemma select_base_interval_witness :
  (forall random fuel calls base calls',
     select_base random fuel (BN_bitLength 5) (5 - 1) calls
       = Some (base, calls') ->
     3 <= base <= 5 - 2) /\
  (forall b, 3 <= b <= 5 - 2 ->
     exists random fuel calls',
       select_base random fuel (BN_bitLength 5) (5 - 1) 0 = Some (b, calls')) /\
  (forall random fuel calls calls',
     select_base random fuel (BN_bitLength 5) (5 - 1) calls
       <> Some (2, calls')).
Proof.
  apply (select_base_interval 5). lia.
Defined.

(** On the candidate 5, the draw [010] (the number 2) is rejected and the
    next draw [011] (the number 3) is retained. *)
Example select_base_5_rejects_2 :
  select_base (fun k => match k with
                        | O => [false; true; false]
                        | _ => [false; true; true]
                        end)
    10 (BN_bitLength 5) (5 - 1) 0 = Some (3, 2%nat).
Proof. reflexivity. Qed.

(** C7 (witness of the first failing round): when [testPrimality] resolves,
    let [bases] be the bases of the rounds it evaluated, in order (the run
    draws nothing beyond their selection).  The witness is non-null if and
    only if [probablePrime] is false and one of these rounds found [n]
    composite; a non-null witness is the base of the last evaluated round,
    which found [n] composite while every earlier round passed; and with no
    witness on a candidate [n >= 4] all [numRounds] rounds were evaluated and
    passed. *)
Theorem testPrimality_witness (random : nat -> list bool) (fuel : nat)
    (input : js_input) (numRounds : Z) (calls : nat)
    (result : MillerRabinResult) (calls' : nat) :
  testPrimality random fuel input numRounds calls
    = Some (Resolved result, calls') ->
  exists bases,
    (List.length bases <= Z.to_nat numRounds)%nat /\
    selected_bases random fuel (List.length bases)
      (BN_bitLength (n result)) (n result - 1) calls = Some (bases, calls') /\
    (witness result <> None <->
     probablePrime result = false /\
     Exists (fun b => round_of (n result) b = Composite) bases) /\
    (forall w, witness result = Some w ->
       exists earlier,
         bases = earlier ++ [w] /\
         Forall (fun b => round_of (n result) b = NextRound) earlier /\
         round_of (n result) w = Composite) /\
    (witness result = None -> 4 <= n result ->
       probablePrime result = true /\
       List.length bases = Z.to_nat numRounds /\
       Forall (fun b => round_of (n result) b = NextRound) bases).
Proof.
  intros Hrun.
  destruct (testPrimality_resolved_value _ _ _ _ _ _ _ Hrun) as [z Hz].
  rewrite (testPrimality_by_value _ _ _ _ _ _ Hz) in Hrun. revert Hrun.
  unfold testPrimality. simpl BN_new. cbv beta iota.
  destruct (Z.ltb_spec z 2) as [Hlt2 | Hge2].
  { intros [= <- <-]. exists [].
    cbn [n witness probablePrime List.length selected_bases].
    split; [lia | ]. split; [reflexivity | ]. split; [ | split].
    - split; [intros H; now contradiction H | ].
      intros [_ H]. now apply Exists_nil in H.
    - discriminate.
    - intros _ H4. lia. }
  destruct (Z.ltb_spec z 4) as [Hlt4 | Hge4].
  { intros [= <- <-]. exists [].
    cbn [n witness probablePrime List.length selected_bases].
    split; [lia | ]. split; [reflexivity | ]. split; [ | split].
    - split; [intros H; now contradiction H | ].
      intros [_ H]. now apply Exists_nil in H.
    - discriminate.
    - intros _ H4. lia. }
  destruct (rounds random fuel (Z.to_nat numRounds) z (BN_bitLength z) (z - 1)
              (BN_zeroBits (z - 1)) (Z.quot (z - 1) (2 ^ BN_zeroBits (z - 1)))
              calls) as [[[pp w] calls1] | ] eqn:Hrun; cbn [bind];
    [ | discriminate].
  intros [= <- <-]. cbn [n witness probablePrime].
  destruct (rounds_trace _ _ _ _ _ _ _ _ _ _ _ _ Hrun)
    as (bases & Hlen & Hsel & Hw).
  exists bases. split; [exact Hlen | ]. split; [exact Hsel | ].
  unfold round_of.
  destruct w as [w | ].
  - destruct Hw as (-> & earlier & -> & Hall & Hcomp). split; [ | split].
    + split; [ | discriminate]. intros _. split; [reflexivity | ].
      apply Exists_app. right. now constructor.
    + intros w' [= <-]. exists earlier. repeat split; assumption.
    + discriminate.
  - destruct Hw as (-> & Hl & Hall). split; [ | split].
    + split; [intros H; now contradiction H | ].
      intros [H _]. discriminate.
    + discriminate.
    + intros _ _. repeat split; assumption.
Qed.

(** On the candidate 25 with five rounds: the first base, 7, is a strong
    liar and the round passes; the second base, 3, proves 25 composite; the
    run stops there, with two draws made. *)
Example testPrimality_25 :
  testPrimality draws_7_then_3 10 (JsInteger 25) 5 0
    = Some (Resolved (mkResult 25 false (Some 3)), 2%nat).
Proof. reflexivity. Qed.

Lemma testPrimality_witness_witness :
  exists bases,
    (List.length bases <= Z.to_nat 5)%nat /\
    selected_bases draws_7_then_3 10 (List.length bases)
      (BN_bitLength 25) (25 - 1) 0 = Some (bases, 2%nat) /\
    (Some 3 <> None <->
     false = false /\
     Exists (fun b => round_of 25 b = Composite) bases) /\
    (forall w, Some 3 = Some w ->
       exists earlier,
         bases = earlier ++ [w] /\
         Forall (fun b => round_of 25 b = NextRound) earlier /\
         round_of 25 w = Composite) /\
    (Some 3 = None -> 4 <= 25 ->
       false = true /\
       List.length bases = Z.to_nat 5 /\
       Forall (fun b => round_of 25 b = NextRound) bases).
Proof.
  apply (testPrimality_witness draws_7_then_3 10 (JsInteger 25) 5 0
           (mkResult 25 false (Some 3)) 2%nat).
  reflexivity.
Defined.

(** C8, as amended (rejection): the promise of [testPrimality] is rejected
    for an input of which bn.js makes no number: [null], and every number of
    magnitude [2 ^ 53] or more.  A negative integer, given as a number above
    [- 2 ^ 53] or as a bn.js number, causes no rejection: the promise is
    resolved with [probablePrime = false] and [witness = null]. *)
Theorem testPrimality_rejection (random : nat -> list bool) (fuel : nat)
    (numRounds : Z) (calls : nat) :
  (forall number,
     2 ^ 53 * Z.pos (denominator number) <= Z.abs (numerator number) ->
     testPrimality random fuel (JsNumber number) numRounds calls
       = Some (Rejected (Error "Assertion failed"), calls)) /\
  (exists message,
     testPrimality random fuel JsNull numRounds calls
       = Some (Rejected (TypeError message), calls)) /\
  (forall z, - 2 ^ 53 < z < 0 ->
     testPrimality random fuel (JsNumber (js_integer z)) numRounds calls
       = Some (Resolved (mkResult z false None), calls)) /\
  (forall z, z < 0 ->
     testPrimality random fuel (JsInteger z) numRounds calls
       = Some (Resolved (mkResult z false None), calls)).
Proof.
  split; [ | split; [ | split]].
  - intros number Hlarge. unfold testPrimality.
    now rewrite (BN_new_number_large number Hlarge).
  - eexists. reflexivity.
  - intros z Hz.
    assert (Hv : BN_new (JsNumber (js_integer z)) = inr (BN_of z)).
    { rewrite BN_new_number.
      - unfold integer_part. cbn [js_integer numerator denominator].
        now rewrite Z.quot_1_r.
      - cbn [js_integer numerator denominator]. lia. }
    rewrite (testPrimality_by_value _ _ _ _ _ _ Hv).
    apply testPrimality_below_2. lia.
  - intros z Hz. apply testPrimality_below_2. lia.
Qed.

(** C8, as stated, fails for the input -5: the promise is resolved. *)
Lemma testPrimality_negative_resolved :
  testPrimality (fun _ => []) 0 (JsNumber (js_integer (-5))) 2 0
    = Some (Resolved (mkResult (-5) false None), 0%nat) /\
  forall err calls',
    testPrimality (fun _ => []) 0 (JsNumber (js_integer (-5))) 2 0
      <> Some (Rejected err, calls').
Proof.
  split; [reflexivity | ]. intros err calls'. discriminate.
Qed.

(** A number of magnitude below [2 ^ 53] is tested as the bn.js number that
    holds its integer part: what is proved of [JsInteger] inputs holds of
    such numbers. *)
Lemma testPrimality_number (random : nat -> list bool) (fuel : nat)
    (number : js_number) (numRounds : Z) (calls : nat) :
  Z.abs (numerator number) < 2 ^ 53 * Z.pos (denominator number) ->
  testPrimality random fuel (JsNumber number) numRounds calls
    = testPrimality random fuel (JsInteger (integer_part number)) numRounds
        calls.
Proof.
  intros Hsmall. apply testPrimality_by_value. now apply BN_new_number.
Qed.

(** So the number 4 is never settled either. *)
Example testPrimality_number_4 (random : nat -> list bool) (fuel : nat)
    (numRounds : Z) (calls : nat) :
  0 < numRounds ->
  testPrimality random fuel (JsNumber (js_integer 4)) numRounds calls = None.
Proof.
  intros Hrounds. rewrite testPrimality_number by (vm_compute; reflexivity).
  unfold testPrimality. simpl.
  destruct (Z.to_nat numRounds) as [ | todo] eqn:Hn; [lia | ].
  cbn [rounds]. rewrite select_base_empty_range by lia. reflexivity.
Qed.

End TesterTheorems.

(** ** Further laws of the Montgomery engine *)

Module EngineLaws.
Import Montgomery ContextFacts ArithmeticFacts.

Section InContext.

Variables (m : Z) (ctx : MontgomeryReductionContext).
Hypothesis Hctx : reductionContextFor m = inr ctx.
Hypothesis Hm : 0 < m.

Let Hbase := ctx_base m ctx Hctx.

(** Every number of [[0, m)] is a Montgomery form: of its own decoding. *)
Lemma form_of_range (x : Z) :
  0 <= x < m -> montgomery_form ctx x (x * rInv ctx).
Proof.
  intros Hx. unfold montgomery_form. rewrite Hbase. split; [exact Hx | ].
  rewrite <- Z.mul_assoc, (Z.mul_comm (rInv ctx)), (ctx_r_rInv m ctx Hctx).
  now rewrite Z.mul_1_r.
Qed.

(** Montgomery forms are unique. *)
Lemma form_unique (x y v w : Z) :
  montgomery_form ctx x v -> montgomery_form ctx y w -> cong m v w -> x = y.
Proof.
  unfold montgomery_form. rewrite Hbase. intros [Hx Hxv] [Hy Hyw] Hvw.
  assert (H : cong m x y) by now rewrite Hxv, Hyw, Hvw.
  unfold cong in H. now rewrite !Z.mod_small in H by assumption.
Qed.

Lemma form_range (x v : Z) : montgomery_form ctx x v -> 0 <= x < m.
Proof. unfold montgomery_form. rewrite Hbase. now intros [H _]. Qed.

Lemma invReduce_range (x : Z) : 0 <= x -> 0 <= invReduce x ctx < m.
Proof.
  intros Hx. rewrite (invReduce_mod m ctx Hctx Hm) by exact Hx.
  apply Z.mod_pos_bound. exact Hm.
Qed.

Lemma reduce_invReduce_eq (x : Z) :
  0 <= x < m -> reduce (invReduce x ctx) ctx = x.
Proof.
  intros Hx. pose proof (invReduce_range x ltac:(lia)) as Hr.
  apply (form_unique _ _ (invReduce x ctx) (x * rInv ctx)).
  - apply (reduce_form m ctx Hctx Hm). lia.
  - now apply form_of_range.
  - rewrite (invReduce_mod m ctx Hctx Hm) by lia. apply cong_mod.
Qed.

Lemma mul_decoded (x y : Z) :
  0 <= x < m -> 0 <= y < m ->
  invReduce (mul x y ctx) ctx = (invReduce x ctx * invReduce y ctx) mod m.
Proof.
  intros Hx Hy.
  rewrite (invReduce_form m ctx Hctx Hm (mul x y ctx)
             (x * rInv ctx * (y * rInv ctx))).
  - rewrite !(invReduce_mod m ctx Hctx Hm) by lia.
    change (cong m (x * rInv ctx * (y * rInv ctx))
              ((x * rInv ctx) mod m * ((y * rInv ctx) mod m))).
    now rewrite !cong_mod.
  - apply (mul_form m ctx Hctx Hm); now apply form_of_range.
Qed.

Lemma mul_assoc_range (x y z : Z) :
  0 <= x < m -> 0 <= y < m -> 0 <= z < m ->
  mul (mul x y ctx) z ctx = mul x (mul y z ctx) ctx.
Proof.
  intros Hx Hy Hz.
  pose proof (form_of_range x Hx) as Fx.
  pose proof (form_of_range y Hy) as Fy.
  pose proof (form_of_range z Hz) as Fz.
  apply (form_unique _ _ (x * rInv ctx * (y * rInv ctx) * (z * rInv ctx))
           (x * rInv ctx * (y * rInv ctx * (z * rInv ctx)))).
  - repeat apply (mul_form m ctx Hctx Hm); assumption.
  - repeat apply (mul_form m ctx Hctx Hm); assumption.
  - apply (cong_of_multiple _ _ _ 0). ring.
Qed.

Lemma mul_one_l (x : Z) : 0 <= x < m -> mul (reduce 1 ctx) x ctx = x.
Proof.
  intros Hx. pose proof (form_of_range x Hx) as Fx.
  apply (form_unique _ _ (1 * (x * rInv ctx)) (x * rInv ctx)).
  - apply (mul_form m ctx Hctx Hm); [ | exact Fx].
    apply (reduce_form m ctx Hctx Hm). lia.
  - exact Fx.
  - now rewrite Z.mul_1_l.
Qed.

Lemma sqr_is_mul (x : Z) : 0 <= x < m -> sqr x ctx = mul x x ctx.
Proof.
  intros Hx. destruct (mul_spec m ctx Hctx Hm x x Hx Hx) as [Hr _].
  unfold sqr. rewrite Hbase, Z.rem_mod_nonneg by lia.
  now apply Z.mod_small.
Qed.

Lemma pow_form_range (x e : Z) :
  0 <= x < m -> 0 <= e ->
  montgomery_form ctx (pow x e ctx) ((x * rInv ctx) ^ e).
Proof.
  intros Hx He. apply (pow_form m ctx Hctx Hm); [exact He | ].
  now apply form_of_range.
Qed.

End InContext.

Lemma mul_comm_any (a b : Z) (ctx : MontgomeryReductionContext) :
  mul a b ctx = mul b a ctx.
Proof.
  unfold mul, mul_product. now rewrite orb_comm, (Z.mul_comm b a).
Qed.

(** X1 (round trip from Montgomery form): in the context of an odd modulus
    [m > 0], [invReduce] maps [[0, m)] into [[0, m)] and [reduce] undoes it:
    [reduce (invReduce x) = x]. *)
Theorem reduce_invReduce (m : Z) (ctx : MontgomeryReductionContext) (x : Z) :
  reductionContextFor m = inr ctx -> 0 < m -> 0 <= x < m ->
  0 <= invReduce x ctx < m /\ reduce (invReduce x ctx) ctx = x.
Proof.
  intros Hctx Hm Hx. split.
  - apply (invReduce_range m ctx Hctx Hm). lia.
  - now apply (reduce_invReduce_eq m ctx Hctx Hm).
Qed.

Lemma reduce_invReduce_witness :
  0 <= invReduce 3 (mkContext 7 4 16 4 7) < 7 /\
  reduce (invReduce 3 (mkContext 7 4 16 4 7)) (mkContext 7 4 16 4 7) = 3.
Proof.
  apply (reduce_invReduce 7 (mkContext 7 4 16 4 7) 3); [reflexivity | lia | lia].
Defined.

(** X2 (multiplication decodes to multiplication): for all Montgomery-form
    operands [x], [y] in [[0, m)], not only those produced by [reduce],
    [invReduce (mul x y)] is the product of the decoded operands modulo
    [m]. *)
Theorem invReduce_mul (m : Z) (ctx : MontgomeryReductionContext) (x y : Z) :
  reductionContextFor m = inr ctx -> 0 < m ->
  0 <= x < m -> 0 <= y < m ->
  invReduce (mul x y ctx) ctx = (invReduce x ctx * invReduce y ctx) mod m.
Proof.
  intros Hctx Hm. apply (mul_decoded m ctx Hctx Hm).
Qed.

Lemma invReduce_mul_witness :
  invReduce (mul 3 5 (mkContext 7 4 16 4 7)) (mkContext 7 4 16 4 7)
  = (invReduce 3 (mkContext 7 4 16 4 7)
     * invReduce 5 (mkContext 7 4 16 4 7)) mod 7.
Proof.
  apply (invReduce_mul 7 (mkContext 7 4 16 4 7) 3 5);
    [reflexivity | lia | lia | lia].
Defined.

(** X3 (monoid laws of [mul]): on [[0, m)], [mul] is commutative and
    associative, stays in [[0, m)], and has [reduce 1] as its unit. *)
Theorem mul_monoid (m : Z) (ctx : MontgomeryReductionContext) (x y z : Z) :
  reductionContextFor m = inr ctx -> 0 < m ->
  0 <= x < m -> 0 <= y < m -> 0 <= z < m ->
  0 <= mul x y ctx < m /\
  mul x y ctx = mul y x ctx /\
  mul (mul x y ctx) z ctx = mul x (mul y z ctx) ctx /\
  mul (reduce 1 ctx) x ctx = x /\
  mul x (reduce 1 ctx) ctx = x.
Proof.
  intros Hctx Hm Hx Hy Hz. repeat split.
  - now apply (mul_spec m ctx Hctx Hm).
  - now apply (mul_spec m ctx Hctx Hm).
  - apply mul_comm_any.
  - now apply (mul_assoc_range m ctx Hctx Hm).
  - now apply (mul_one_l m ctx Hctx Hm).
  - rewrite mul_comm_any. now apply (mul_one_l m ctx Hctx Hm).
Qed.

Lemma mul_monoid_witness :
  0 <= mul 3 5 (mkContext 7 4 16 4 7) < 7 /\
  mul 3 5 (mkContext 7 4 16 4 7) = mul 5 3 (mkContext 7 4 16 4 7) /\
  mul (mul 3 5 (mkContext 7 4 16 4 7)) 6 (mkContext 7 4 16 4 7)
  = mul 3 (mul 5 6 (mkContext 7 4 16 4 7)) (mkContext 7 4 16 4 7) /\
  mul (reduce 1 (mkContext 7 4 16 4 7)) 3 (mkContext 7 4 16 4 7) = 3 /\
  mul 3 (reduce 1 (mkContext 7 4 16 4 7)) (mkContext 7 4 16 4 7) = 3.
Proof.
  apply (mul_monoid 7 (mkContext 7 4 16 4 7) 3 5 6);
    [reflexivity | lia | lia | lia | lia].
Defined.

(** X4 ([sqr]): on [[0, m)] the final [% base] of [sqr] changes nothing,
    [sqr x = mul x x], and the result decodes to the square of the decoded
    operand. *)
Theorem sqr_square (m : Z) (ctx : MontgomeryReductionContext) (x : Z) :
  reductionContextFor m = inr ctx -> 0 < m -> 0 <= x < m ->
  sqr x ctx = mul x x ctx /\
  0 <= sqr x ctx < m /\
  invReduce (sqr x ctx) ctx = (invReduce x ctx * invReduce x ctx) mod m.
Proof.
  intros Hctx Hm Hx.
  rewrite (sqr_is_mul m ctx Hctx Hm x Hx). repeat split.
  - now apply (mul_spec m ctx Hctx Hm).
  - now apply (mul_spec m ctx Hctx Hm).
  - now apply (mul_decoded m ctx Hctx Hm).
Qed.

Lemma sqr_square_witness :
  sqr 3 (mkContext 7 4 16 4 7) = mul 3 3 (mkContext 7 4 16 4 7) /\
  0 <= sqr 3 (mkContext 7 4 16 4 7) < 7 /\
  invReduce (sqr 3 (mkContext 7 4 16 4 7)) (mkContext 7 4 16 4 7)
  = (invReduce 3 (mkContext 7 4 16 4 7)
     * invReduce 3 (mkContext 7 4 16 4 7)) mod 7.
Proof.
  apply (sqr_square 7 (mkContext 7 4 16 4 7) 3); [reflexivity | lia | lia].
Defined.

(** X5 (laws of exponents): for a Montgomery-form [x] in [[0, m)] and
    exponents [e1, e2 >= 0], [pow] stays in [[0, m)], [pow x 1 = x],
    [pow x (e1 + e2) = mul (pow x e1) (pow x e2)] and
    [pow x (e1 * e2) = pow (pow x e1) e2]. *)
Theorem pow_exponent_laws (m : Z) (ctx : MontgomeryReductionContext)
    (x e1 e2 : Z) :
  reductionContextFor m = inr ctx -> 0 < m ->
  0 <= x < m -> 0 <= e1 -> 0 <= e2 ->
  0 <= pow x e1 ctx < m /\
  pow x 1 ctx = x /\
  pow x (e1 + e2) ctx = mul (pow x e1 ctx) (pow x e2 ctx) ctx /\
  pow x (e1 * e2) ctx = pow (pow x e1 ctx) e2 ctx.
Proof.
  intros Hctx Hm Hx He1 He2.
  pose proof (pow_form_range m ctx Hctx Hm x e1 Hx He1) as F1.
  pose proof (pow_form_range m ctx Hctx Hm x e2 Hx He2) as F2.
  pose proof (form_range m ctx Hctx _ _ F1) as R1.
  split; [exact R1 | ]. split; [ | split].
  - apply (form_unique m ctx Hctx _ _ ((x * rInv ctx) ^ 1) (x * rInv ctx)).
    + apply (pow_form_range m ctx Hctx Hm); [exact Hx | lia].
    + now apply (form_of_range m ctx Hctx).
    + now rewrite Z.pow_1_r.
  - apply (form_unique m ctx Hctx _ _ ((x * rInv ctx) ^ (e1 + e2))
             ((x * rInv ctx) ^ e1 * (x * rInv ctx) ^ e2)).
    + apply (pow_form_range m ctx Hctx Hm); [exact Hx | lia].
    + now apply (mul_form m ctx Hctx Hm).
    + now rewrite Z.pow_add_r.
  - apply (form_unique m ctx Hctx _ _ ((x * rInv ctx) ^ (e1 * e2))
             (((x * rInv ctx) ^ e1) ^ e2)).
    + apply (pow_form_range m ctx Hctx Hm); [exact Hx | ].
      now apply Z.mul_nonneg_nonneg.
    + apply (pow_form m ctx Hctx Hm); assumption.
    + now rewrite Z.pow_mul_r.
Qed.

Lemma pow_exponent_laws_witness :
  0 <= pow 3 5 (mkContext 7 4 16 4 7) < 7 /\
  pow 3 1 (mkContext 7 4 16 4 7) = 3 /\
  pow 3 (5 + 2) (mkContext 7 4 16 4 7)
  = mul (pow 3 5 (mkContext 7 4 16 4 7)) (pow 3 2 (mkContext 7 4 16 4 7))
      (mkContext 7 4 16 4 7) /\
  pow 3 (5 * 2) (mkContext 7 4 16 4 7)
  = pow (pow 3 5 (mkContext 7 4 16 4 7)) 2 (mkContext 7 4 16 4 7).
Proof.
  apply (pow_exponent_laws 7 (mkContext 7 4 16 4 7) 3 5 2);
    [reflexivity | lia | lia | lia | lia].
Defined.

End EngineLaws.

(** ** Laws of the numeric utilities and of the context *)

Module UtilityLaws.
Import Montgomery ContextFacts.

Lemma pow_size_nat_le_pos (p : positive) :
  2 ^ (Z.of_nat (Pos.size_nat p) - 1) <= Z.pos p.
Proof.
  induction p as [q IH | q IH | ]; simpl Pos.size_nat.
  - replace (Z.of_nat (S (Pos.size_nat q)) - 1)
      with (Z.succ (Z.of_nat (Pos.size_nat q) - 1)) by lia.
    rewrite Z.pow_succ_r by (destruct q; cbn [Pos.size_nat]; lia). lia.
  - replace (Z.of_nat (S (Pos.size_nat q)) - 1)
      with (Z.succ (Z.of_nat (Pos.size_nat q) - 1)) by lia.
    rewrite Z.pow_succ_r by (destruct q; cbn [Pos.size_nat]; lia). lia.
  - simpl. lia.
Qed.

Lemma bitLength_range (n : Z) :
  0 < n -> 2 ^ (bitLength n - 1) <= n < 2 ^ bitLength n.
Proof.
  intros Hn. split; [ | apply bitLength_bound; lia].
  destruct n as [ | p | p]; try lia. unfold bitLength. simpl toString2.
  rewrite length_pos_toString2. simpl String.length. rewrite Nat.add_0_r.
  apply pow_size_nat_le_pos.
Qed.

(** X6 ([bitLength]): the string of 0 has one digit; for [n > 0],
    [bitLength n] is the number of binary digits,
    [2 ^ (bitLength n - 1) <= n < 2 ^ bitLength n]; for [n < 0] the sign is
    counted as well. *)
Theorem bitLength_digits (n : Z) :
  0 < n ->
  bitLength 0 = 1 /\
  2 ^ (bitLength n - 1) <= n < 2 ^ bitLength n /\
  bitLength n = Z.log2 n + 1 /\
  bitLength (- n) = bitLength n + 1.
Proof.
  intros Hn. split; [reflexivity | ].
  pose proof (bitLength_range n Hn) as Hb.
  split; [exact Hb | ]. split.
  - pose proof (bitLength_positive n).
    assert (Z.log2 n = bitLength n - 1); [ | lia].
    apply Z.log2_unique; [lia | ].
    now replace (Z.succ (bitLength n - 1)) with (bitLength n) by lia.
  - destruct n as [ | p | p]; try lia. unfold bitLength. simpl.
    rewrite !length_pos_toString2. lia.
Qed.

Lemma bitLength_digits_witness :
  bitLength 0 = 1 /\
  2 ^ (bitLength 5 - 1) <= 5 < 2 ^ bitLength 5 /\
  bitLength 5 = Z.log2 5 + 1 /\
  bitLength (- 5) = bitLength 5 + 1.
Proof.
  apply (bitLength_digits 5). lia.
Defined.

(** *** [twoMultiplicity] *)

Lemma odd_part_pos (p : positive) :
  exists k c, 0 <= k /\ 0 < c /\ Z.odd c = true /\ Z.pos p = c * 2 ^ k.
Proof.
  induction p as [q IH | q IH | ].
  - exists 0, (Z.pos q~1). repeat split; lia.
  - destruct IH as (k & c & Hk & Hc & Ho & E).
    exists (k + 1), c. repeat split; try lia; try assumption.
    rewrite Z.pow_add_r, Z.pow_1_r by lia. lia.
  - exists 0, 1. repeat split; lia.
Qed.

Lemma odd_part (n : Z) :
  n <> 0 ->
  exists k c, 0 <= k <= Z.log2 (Z.abs n) /\ Z.odd c = true /\ n = c * 2 ^ k.
Proof.
  intros Hn.
  assert (Hpos : forall p, exists k c,
             0 <= k <= Z.log2 (Z.pos p) /\ 0 < c /\ Z.odd c = true /\
             Z.pos p = c * 2 ^ k).
  { intros p. destruct (odd_part_pos p) as (k & c & Hk & Hc & Ho & E).
    exists k, c. repeat split; try assumption.
    apply Z.log2_le_pow2; [lia | ].
    assert (0 < 2 ^ k) by (apply Z.pow_pos_nonneg; lia). nia. }
  destruct n as [ | p | p]; [contradiction | | ].
  - destruct (Hpos p) as (k & c & Hk & _ & Ho & E). now exists k, c.
  - destruct (Hpos p) as (k & c & Hk & _ & Ho & E).
    exists k, (- c). split; [exact Hk | ]. split.
    + now rewrite Z.odd_opp.
    + rewrite Z.mul_opp_l, <- E. reflexivity.
Qed.

Lemma twoMultiplicity_loop_spec (fuel : nat) :
  forall n m k,
    0 <= m <= k -> k - m < Z.of_nat fuel ->
    Z.testbit n k = true ->
    (forall i, m <= i < k -> Z.testbit n i = false) ->
    twoMultiplicity_loop fuel n m = Some k.
Proof.
  induction fuel as [ | fuel IH]; intros n m k Hm Hfuel Hk Hlow; [lia | ].
  cbn [twoMultiplicity_loop]. rewrite truthy_land_bit by lia.
  destruct (Z.eq_dec m k) as [-> | Hne].
  - now rewrite Hk.
  - rewrite Hlow by lia. apply IH; try lia; try assumption.
    intros i Hi. apply Hlow. lia.
Qed.

(** X7 ([twoMultiplicity]): [twoMultiplicity 0] is 0; for [n <> 0], negative
    or positive, fuel for one iteration per binary digit makes the scan
    return the [k] with [n = c * 2 ^ k] for an odd [c]: [2 ^ k] divides [n]
    and [2 ^ (k + 1)] does not. *)
Theorem twoMultiplicity_valuation (fuel : nat) (n : Z) :
  n <> 0 -> Z.log2 (Z.abs n) < Z.of_nat fuel ->
  twoMultiplicity fuel 0 = Some 0 /\
  exists k c,
    twoMultiplicity fuel n = Some k /\
    0 <= k /\ n = c * 2 ^ k /\ Z.odd c = true /\
    (2 ^ k | n) /\ ~ (2 ^ (k + 1) | n).
Proof.
  intros Hn Hfuel. split; [reflexivity | ].
  destruct (odd_part n Hn) as (k & c & Hk & Ho & E).
  exists k, c. split; [ | split; [lia | split; [exact E | split; [exact Ho | ]]]].
  - unfold twoMultiplicity.
    destruct (Z.eqb_spec n 0) as [H0 | _]; [contradiction | ].
    apply twoMultiplicity_loop_spec; try lia.
    + rewrite E, Z.mul_pow2_bits, Z.sub_diag, Z.bit0_odd by lia. exact Ho.
    + intros i Hi. rewrite E. apply Z.mul_pow2_bits_low. lia.
  - split.
    + exists c. exact E.
    + intros [q Hq]. rewrite Z.pow_add_r, Z.pow_1_r in Hq by lia.
      assert (Hp : 0 < 2 ^ k) by (apply Z.pow_pos_nonneg; lia).
      assert (Hc : c = q * 2) by nia.
      rewrite Hc, Z.odd_mul in Ho. simpl in Ho.
      now rewrite andb_false_r in Ho.
Qed.

Lemma twoMultiplicity_valuation_witness :
  twoMultiplicity 5 0 = Some 0 /\
  exists k c,
    twoMultiplicity 5 (- 24) = Some k /\
    0 <= k /\ - 24 = c * 2 ^ k /\ Z.odd c = true /\
    (2 ^ k | - 24) /\ ~ (2 ^ (k + 1) | - 24).
Proof.
  apply (twoMultiplicity_valuation 5 (- 24)); [lia | reflexivity].
Defined.

(** *** [invert] *)

(** X8 ([invert]): for an odd [base > 0] and [exp >= 0], [invert exp base]
    lies in [[1, base]] and is an inverse of [2 ^ exp] modulo [base]; with
    [exp <= 0] the loop does not run and the value is 1. *)
Theorem invert_inverse (exp m : Z) :
  Z.odd m = true -> 0 < m -> 0 <= exp ->
  0 < invert exp m <= m /\
  cong m (invert exp m * 2 ^ exp) 1 /\
  (forall exp', exp' <= 0 -> invert exp' m = 1).
Proof.
  intros Ho Hm He. unfold invert. split; [ | split].
  - apply invert_loop_range; [exact Ho | lia].
  - destruct (invert_loop_congruence (Z.to_nat exp) m 1 Ho) as [q Hq].
    rewrite Z2Nat.id in Hq by exact He.
    now apply (cong_of_multiple _ _ _ q).
  - intros exp' He'. destruct exp'; try lia; reflexivity.
Qed.

Lemma invert_inverse_witness :
  0 < invert 4 7 <= 7 /\
  cong 7 (invert 4 7 * 2 ^ 4) 1 /\
  (forall exp', exp' <= 0 -> invert exp' 7 = 1).
Proof.
  apply (invert_inverse 4 7); [reflexivity | lia | lia].
Defined.

(** *** Sizes of the fields of a context *)

(** X9 (sizes in a context): for an odd [base > 0], [r] is the power of two
    [2 ^ (bitLength base + 1)], which lies in [(2 * base, 4 * base]]: twice
    the smallest power of two above [base]; [rInv] lies in [[1, base]] and
    [baseInv] in [[1, r)]. *)
Theorem context_sizes (m : Z) (ctx : MontgomeryReductionContext) :
  reductionContextFor m = inr ctx -> 0 < m ->
  shift ctx = bitLength m + 1 /\
  r ctx = 2 ^ shift ctx /\
  2 * m < r ctx <= 4 * m /\
  m < r ctx / 2 <= 2 * m /\
  0 < rInv ctx <= m /\
  0 < baseInv ctx < r ctx.
Proof.
  intros Hctx Hm.
  pose proof (reductionContextFor_fields m ctx Hctx)
    as (Ho & Hb & Hs & Hr & Hri & Hbi).
  pose proof (bitLength_range m Hm) as [Hlo Hhi].
  pose proof (bitLength_positive m) as Hlen.
  assert (Hr4 : r ctx = 4 * 2 ^ (bitLength m - 1)).
  { rewrite Hr, Hs.
    replace (bitLength m + 1) with (2 + (bitLength m - 1)) by lia.
    rewrite Z.pow_add_r by lia. reflexivity. }
  assert (Hr2 : 2 ^ bitLength m = 2 * 2 ^ (bitLength m - 1)).
  { replace (bitLength m) with (1 + (bitLength m - 1)) at 1 by lia.
    rewrite Z.pow_add_r by lia. reflexivity. }
  assert (Hrange : 2 * m < r ctx <= 4 * m) by lia.
  assert (Hinv : 0 < rInv ctx <= m).
  { rewrite Hri. apply invert_loop_range; [exact Ho | lia]. }
  split; [exact Hs | ]. split; [exact Hr | ]. split; [exact Hrange | ].
  split; [ | split; [exact Hinv | ]].
  - rewrite Hr4. replace (4 * 2 ^ (bitLength m - 1))
      with (2 * 2 ^ (bitLength m - 1) * 2) by lia.
    rewrite Z.div_mul by lia. lia.
  - destruct (context_baseInv_congruence m ctx Hctx) as [q Hq].
    assert (Hk : 0 <= Z.quot (rInv ctx * r ctx - 1) m).
    { apply Z.quot_pos; nia. }
    pose proof (Z.rem_bound_pos _ (r ctx) Hk ltac:(lia)) as Hrem.
    rewrite Hbi. split; [lia | ].
    assert (Hne : baseInv ctx <> r ctx).
    { intros E. rewrite E in Hq.
      assert ((m - q) * r ctx = 1) by lia. nia. }
    rewrite Hbi in Hne. lia.
Qed.

Lemma context_sizes_witness :
  shift (mkContext 7 4 16 4 7) = bitLength 7 + 1 /\
  r (mkContext 7 4 16 4 7) = 2 ^ shift (mkContext 7 4 16 4 7) /\
  2 * 7 < r (mkContext 7 4 16 4 7) <= 4 * 7 /\
  7 < r (mkContext 7 4 16 4 7) / 2 <= 2 * 7 /\
  0 < rInv (mkContext 7 4 16 4 7) <= 7 /\
  0 < baseInv (mkContext 7 4 16 4 7) < r (mkContext 7 4 16 4 7).
Proof.
  apply (context_sizes 7 (mkContext 7 4 16 4 7)); [reflexivity | lia].
Defined.

End UtilityLaws.

(** ** Further laws of the tester *)

Module RoundLaws.
Import MillerRabin TesterFacts.

(** *** The factoring of [n - 1] *)

Lemma pos_zeroBits_spec (p : positive) :
  exists c, 0 < c /\ Z.odd c = true /\ 0 <= pos_zeroBits p /\
    Z.pos p = c * 2 ^ pos_zeroBits p.
Proof.
  induction p as [q IH | q IH | ].
  - exists (Z.pos q~1). cbn [pos_zeroBits]. repeat split; lia.
  - destruct IH as (c & Hc & Ho & Hz & E). exists c. cbn [pos_zeroBits].
    repeat split; try lia; try assumption.
    rewrite Z.pow_add_r, Z.pow_1_r by lia. lia.
  - exists 1. cbn [pos_zeroBits]. repeat split; lia.
Qed.

Lemma factor_nSub (nSub : Z) :
  0 < nSub ->
  let r := BN_zeroBits nSub in
  let d := Z.quot nSub (2 ^ r) in
  0 <= r /\ 0 < d /\ Z.odd d = true /\ nSub = d * 2 ^ r.
Proof.
  intros Hn. destruct nSub as [ | p | p]; try lia. cbn [BN_zeroBits].
  destruct (pos_zeroBits_spec p) as (c & Hc & Ho & Hz & E).
  cbv zeta.
  assert (Hp : 0 < 2 ^ pos_zeroBits p) by (apply Z.pow_pos_nonneg; lia).
  assert (Hq : Z.quot (Z.pos p) (2 ^ pos_zeroBits p) = c)
    by (rewrite E at 1; apply Z.quot_mul; lia).
  rewrite Hq. repeat split; assumption.
Qed.

(** *** The squaring loop *)

Section Round.

Variables n b d : Z.
Hypothesis Hn : 4 <= n.
Hypothesis Hb : 0 <= b.
Hypothesis Hd : 0 <= d.

Let X := power_residue n b d.

Lemma residue_range (j : Z) : 0 <= X j < n.
Proof. apply Z.mod_pos_bound. lia. Qed.

Lemma residue_succ (j : Z) : 0 <= j -> X (j + 1) = Z.rem (X j * X j) n.
Proof.
  intros Hj. pose proof (residue_range j) as Hr.
  rewrite Z.rem_mod_nonneg by nia.
  subst X. unfold power_residue in *.
  rewrite <- Zmult_mod, <- Z.pow_add_r.
  - f_equal. f_equal. rewrite Z.pow_add_r, Z.pow_1_r by lia. lia.
  - apply Z.mul_nonneg_nonneg; [lia | apply Z.pow_nonneg; lia].
  - apply Z.mul_nonneg_nonneg; [lia | apply Z.pow_nonneg; lia].
Qed.

Lemma residue_start : X 0 = Z.rem (b ^ d) n.
Proof.
  subst X. unfold power_residue. rewrite Z.pow_0_r, Z.mul_1_r.
  symmetry. apply Z.rem_mod_nonneg; [ | lia]. apply Z.pow_nonneg. lia.
Qed.

Lemma residue_one_stays (i : Z) (k : nat) :
  0 <= i -> X i = 1 -> X (i + Z.of_nat k) = 1.
Proof.
  intros Hi H1. induction k as [ | k IH].
  - now rewrite Z.add_0_r.
  - replace (i + Z.of_nat (S k)) with (i + Z.of_nat k + 1) by lia.
    rewrite residue_succ, IH by lia. simpl Z.mul.
    rewrite Z.rem_mod_nonneg, Z.mod_small; lia.
Qed.

Lemma squaring_loop_spec (k : nat) :
  forall i, 0 <= i ->
    exists i' exit,
      squaring_loop k n (n - 1) i (X i) = (i', exit) /\
      i <= i' /\
      (forall j, i < j <= i' -> X j <> 1 /\ X j <> n - 1) /\
      match exit with
      | BreakOuter => i' < i + Z.of_nat k /\ X (i' + 1) = 1
      | Break => i' < i + Z.of_nat k /\ X (i' + 1) = n - 1
      | Finished => i' = i + Z.of_nat k
      end.
Proof.
  induction k as [ | k IH]; intros i Hi.
  - exists i, Finished. cbn [squaring_loop]. repeat split; lia.
  - cbn [squaring_loop]. rewrite <- residue_succ by exact Hi.
    destruct (Z.eqb_spec (X (i + 1)) 1) as [H1 | H1].
    { exists i, BreakOuter. repeat split; try lia. }
    destruct (Z.eqb_spec (X (i + 1)) (n - 1)) as [H2 | H2].
    { exists i, Break. repeat split; try lia. }
    destruct (IH (i + 1) ltac:(lia)) as (i' & exit & E & Hle & Hall & Hexit).
    exists i', exit. split; [exact E | ]. split; [lia | ]. split.
    + intros j Hj. destruct (Z.eq_dec j (i + 1)) as [-> | Hne].
      * split; assumption.
      * apply Hall. lia.
    + destruct exit; lia.
Qed.

(** A round lets the candidate through exactly when [b ^ d] is 1 or one of
    [b ^ d], [b ^ (2 d)], ..., [b ^ (d * 2 ^ r)] is [n - 1], modulo [n]. *)
Lemma round_body_passes (r : Z) :
  0 <= r ->
  round_body n (n - 1) r d b = NextRound <->
  X 0 = 1 \/ exists j, 0 <= j <= r /\ X j = n - 1.
Proof.
  intros Hr. unfold round_body. rewrite <- residue_start.
  destruct (Z.eqb_spec (X 0) 1) as [H1 | H1]; cbn [orb].
  { split; auto. }
  destruct (Z.eqb_spec (X 0) (n - 1)) as [H2 | H2].
  { split; auto. intros _. right. exists 0. split; [lia | exact H2]. }
  destruct (squaring_loop_spec (Z.to_nat r) 0 ltac:(lia))
    as (i' & exit & E & Hle & Hall & Hexit).
  rewrite E. rewrite Z2Nat.id, Z.add_0_l in Hexit by exact Hr.
  assert (Hnone : forall j, 0 <= j <= i' -> X j <> 1 /\ X j <> n - 1).
  { intros j Hj. destruct (Z.eq_dec j 0) as [-> | Hne]; [now split | ].
    apply Hall. lia. }
  destruct exit.
  - destruct Hexit as [Hlt Hone]. split; [discriminate | ].
    intros [H | (j & Hj & Hm)]; [contradiction | ].
    destruct (Z.le_gt_cases j i') as [Hji | Hji].
    + destruct (Hnone j ltac:(lia)) as [_ Hc]. contradiction.
    + pose proof (residue_one_stays (i' + 1) (Z.to_nat (j - (i' + 1)))
                    ltac:(lia) Hone) as Hs.
      rewrite Z2Nat.id in Hs by lia.
      replace (i' + 1 + (j - (i' + 1))) with j in Hs by lia. lia.
  - destruct Hexit as [Hlt Hm].
    destruct (Z.eqb_spec i' r) as [-> | _]; [lia | ].
    split; auto. intros _. right. exists (i' + 1). split; [lia | exact Hm].
  - subst i'. rewrite Z.eqb_refl. split; [discriminate | ].
    intros [H | (j & Hj & Hm)]; [contradiction | ].
    destruct (Hnone j Hj) as [_ Hc]. contradiction.
Qed.

End Round.

(** *** Primes *)

Lemma sqrt_one_prime (n x : Z) :
  Z.prime n -> 0 <= x < n -> (x * x) mod n = 1 -> x = 1 \/ x = n - 1.
Proof.
  intros Hp Hx Hsq. pose proof (Z.prime_ge_2 n Hp) as Hn.
  assert (Hdiv : (n | (x - 1) * (x + 1))).
  { apply Z.mod_divide; [lia | ].
    replace ((x - 1) * (x + 1)) with (x * x - 1) by ring.
    apply Z.cong_iff_0. rewrite Hsq. symmetry. apply Z.mod_small. lia. }
  destruct (proj1 (Z.divide_prime_mul _ _ n Hp) Hdiv) as [[q Hq] | [q Hq]].
  - assert (q = 0 \/ q = -1 \/ q <= -2 \/ 1 <= q) as [-> | [-> | Hc]] by lia.
    + left. lia.
    + assert (x = 0) by nia. subst x. rewrite Z.mod_0_l in Hsq by lia.
      discriminate.
    + nia.
  - assert (q = 1 \/ q <= 0 \/ 2 <= q) as [-> | Hc] by lia.
    + right. lia.
    + nia.
Qed.

Lemma prime_round_passes (n b : Z) :
  Z.prime n -> 4 <= n -> 0 < b < n -> round_of n b = NextRound.
Proof.
  intros Hp Hn Hb. unfold round_of.
  pose proof (factor_nSub (n - 1) ltac:(lia)) as Hf. cbv zeta in Hf.
  set (r := BN_zeroBits (n - 1)) in *.
  set (d := Z.quot (n - 1) (2 ^ r)) in *.
  destruct Hf as (Hr & Hd & Hodd & E).
  apply (round_body_passes n b d Hn ltac:(lia) ltac:(lia) r Hr).
  assert (Hfermat : power_residue n b d r = 1).
  { unfold power_residue. rewrite <- E.
    apply ZmodInv.Z.fermat_nz; [exact Hp | ].
    rewrite Z.mod_small by lia. lia. }
  assert (Hstep : forall k : nat,
             power_residue n b d (Z.of_nat k) = 1 ->
             power_residue n b d 0 = 1 \/
             exists j, 0 <= j < Z.of_nat k /\ power_residue n b d j = n - 1).
  { induction k as [ | k IH]; intros H1; [now left | ].
    replace (Z.of_nat (S k)) with (Z.of_nat k + 1) in H1 by lia.
    rewrite (residue_succ n b d Hn ltac:(lia) ltac:(lia)) in H1 by lia.
    pose proof (residue_range n b d Hn (Z.of_nat k)) as Hrg.
    rewrite Z.rem_mod_nonneg in H1 by nia.
    destruct (sqrt_one_prime n _ Hp Hrg H1) as [H | H].
    - destruct (IH H) as [H0 | (j & Hj & Hm)]; [now left | ].
      right. exists j. split; [lia | exact Hm].
    - right. exists (Z.of_nat k). split; [lia | exact H]. }
  specialize (Hstep (Z.to_nat r)). rewrite Z2Nat.id in Hstep by exact Hr.
  destruct (Hstep Hfermat) as [H0 | (j & Hj & Hm)]; [now left | ].
  right. exists j. split; [lia | exact Hm].
Qed.

End RoundLaws.

Module TesterLaws.
Import MillerRabin TesterFacts RoundLaws.

Section Run.

Variable random : nat -> list bool.

(** *** [getRandomBitString] *)

Lemma getRandomBitString_loop_spec (numBits : Z) (fuel : nat) :
  forall bits calls out calls',
    getRandomBitString_loop random fuel numBits bits calls = Some (out, calls') ->
    let drawn := bits ++ List.concat (map random (seq calls (calls' - calls))) in
    (calls <= calls')%nat /\
    out = firstn (Z.to_nat numBits) drawn /\
    numBits <= Z.of_nat (List.length drawn) /\
    (Z.of_nat (List.length bits) < numBits -> (calls < calls')%nat).
Proof.
  induction fuel as [ | fuel IH]; intros bits calls out calls';
    [discriminate | ].
  cbn [getRandomBitString_loop].
  destruct (Z.ltb_spec (Z.of_nat (List.length bits)) numBits) as [Hlt | Hge].
  - intros Hrun. specialize (IH _ _ _ _ Hrun). cbv zeta in IH.
    destruct IH as (Hle & Hout & Hlen & _).
    assert (Hseq : seq calls (calls' - calls)
                   = calls :: seq (S calls) (calls' - S calls)).
    { replace (calls' - calls)%nat with (S (calls' - S calls)) by lia.
      reflexivity. }
    cbv zeta. rewrite Hseq. cbn [map List.concat]. rewrite app_assoc.
    repeat split; try assumption; lia.
  - intros [= <- <-]. cbv zeta. rewrite Nat.sub_diag. cbn [seq map List.concat].
    rewrite app_nil_r. repeat split; lia.
Qed.

Lemma getRandomBitString_loop_terminates (numBits : Z) (fuel : nat) :
  forall bits calls,
    (forall k, (calls <= k)%nat -> random k <> []) ->
    Z.max 0 (numBits - Z.of_nat (List.length bits)) < Z.of_nat fuel ->
    exists out calls',
      getRandomBitString_loop random fuel numBits bits calls
        = Some (out, calls') /\
      Z.of_nat calls' - Z.of_nat calls
        <= Z.max 0 (numBits - Z.of_nat (List.length bits)).
Proof.
  induction fuel as [ | fuel IH]; intros bits calls Hne Hfuel; [lia | ].
  cbn [getRandomBitString_loop].
  destruct (Z.ltb_spec (Z.of_nat (List.length bits)) numBits) as [Hlt | Hge].
  - assert (Hchunk : (1 <= List.length (random calls))%nat).
    { specialize (Hne calls (Nat.le_refl _)).
      destruct (random calls); [contradiction | simpl; lia]. }
    destruct (IH (bits ++ random calls) (S calls)) as (out & calls' & E & Hb).
    + intros k Hk. apply Hne. lia.
    + rewrite length_app. lia.
    + exists out, calls'. split; [exact E | ].
      rewrite length_app in Hb. lia.
  - exists (firstn (Z.to_nat numBits) bits), calls. split; [reflexivity | lia].
Qed.

Lemma getRandomBitString_exact (fuel : nat) (nBits : Z) (calls : nat) :
  0 < nBits -> Z.of_nat (List.length (random calls)) = nBits ->
  (2 <= fuel)%nat ->
  getRandomBitString random fuel nBits calls = Some (random calls, S calls).
Proof.
  intros Hn Hlen Hfuel.
  destruct fuel as [ | [ | fuel]]; try lia.
  unfold getRandomBitString. cbn [getRandomBitString_loop List.length app].
  destruct (Z.ltb_spec (Z.of_nat 0) nBits) as [_ | Hc]; [ | lia].
  rewrite Hlen, Z.ltb_irrefl.
  replace (Z.to_nat nBits) with (List.length (random calls)) by lia.
  now rewrite firstn_all.
Qed.

(** *** The rounds *)

Lemma rounds_outcome (fuel : nat) (n nBits nSub r d : Z) (todo : nat) :
  forall calls probablePrime witness calls',
    rounds random fuel todo n nBits nSub r d calls
      = Some (probablePrime, witness, calls') ->
    match witness with
    | Some w =>
        probablePrime = false /\ 2 < w < nSub /\
        round_body n nSub r d w = Composite
    | None => probablePrime = true
    end.
Proof.
  induction todo as [ | todo IH]; intros calls pp w calls'; cbn [rounds].
  - now intros [= <- <- <-].
  - destruct (select_base random fuel nBits nSub calls)
      as [[base calls1] | ] eqn:Hsel; cbn [bind]; [ | discriminate].
    pose proof (select_base_range random _ _ _ _ _ _ Hsel) as Hrange.
    destruct (round_body n nSub r d base) eqn:Hbody.
    + apply IH.
    + intros [= <- <- <-]. repeat split; auto; lia.
Qed.

Lemma rounds_zero (fuel : nat) (n nBits nSub r d : Z) (calls : nat) :
  rounds random fuel 0 n nBits nSub r d calls = Some (true, None, calls).
Proof. reflexivity. Qed.

End Run.

Lemma prime_5 : Z.prime 5.
Proof.
  split; [lia | ]. intros k Hk [q Hq].
  assert (k = 2 \/ k = 3 \/ k = 4) as [-> | [-> | ->]] by lia; lia.
Qed.

End TesterLaws.

(** *** Properties of the tester *)

Module TesterProperties.
Import MillerRabin TesterFacts RoundLaws TesterLaws.

(** X10 ([getRandomBitString], result): when [getRandomBitString numBits]
    returns, it has made at least one draw if [numBits > 0] and none
    otherwise, and its value is the first [numBits] digits of the draws it
    made, concatenated in order: exactly [max 0 numBits] digits. *)
Theorem getRandomBitString_result (random : nat -> list bool) (fuel : nat)
    (numBits : Z) (calls : nat) (bits : list bool) (calls' : nat) :
  getRandomBitString random fuel numBits calls = Some (bits, calls') ->
  (calls <= calls')%nat /\
  (0 < numBits -> (calls < calls')%nat) /\
  (numBits <= 0 -> calls' = calls) /\
  bits = firstn (Z.to_nat numBits)
           (List.concat (map random (seq calls (calls' - calls)))) /\
  Z.of_nat (List.length bits) = Z.max 0 numBits.
Proof.
  unfold getRandomBitString. intros Hrun.
  pose proof (getRandomBitString_loop_spec random numBits fuel _ _ _ _ Hrun)
    as H. cbv zeta in H. cbn [app List.length] in H.
  destruct H as (Hle & Hout & Hlen & Hlt).
  split; [exact Hle | ]. split; [intros Hpos; apply Hlt; lia | ].
  split; [ | split; [exact Hout | ]].
  - intros Hneg. destruct fuel as [ | fuel]; [discriminate | ].
    cbn [getRandomBitString_loop List.length] in Hrun.
    destruct (Z.ltb_spec (Z.of_nat 0) numBits) as [Hc | _]; [lia | ].
    now injection Hrun as _ <-.
  - rewrite Hout, length_firstn. lia.
Qed.

Lemma getRandomBitString_result_witness :
  (0 <= 2)%nat /\
  (0 < 3 -> (0 < 2)%nat) /\
  (3 <= 0 -> 2%nat = 0%nat) /\
  [true; false; true]
  = firstn (Z.to_nat 3)
      (List.concat (map (fun _ => [true; false]) (seq 0 (2 - 0)))) /\
  Z.of_nat (List.length [true; false; true]) = Z.max 0 3.
Proof.
  apply (getRandomBitString_result (fun _ => [true; false]) 5 3 0
           [true; false; true] 2%nat).
  reflexivity.
Defined.

(** X11 ([getRandomBitString], termination): if no draw from now on is the
    empty string, [getRandomBitString numBits] returns after at most
    [max 0 numBits] draws. *)
Theorem getRandomBitString_terminates (random : nat -> list bool)
    (fuel : nat) (numBits : Z) (calls : nat) :
  (forall k, (calls <= k)%nat -> random k <> []) ->
  Z.max 0 numBits < Z.of_nat fuel ->
  exists bits calls',
    getRandomBitString random fuel numBits calls = Some (bits, calls') /\
    Z.of_nat calls' - Z.of_nat calls <= Z.max 0 numBits.
Proof.
  intros Hne Hfuel. unfold getRandomBitString.
  destruct (getRandomBitString_loop_terminates random numBits fuel [] calls)
    as (out & calls' & E & Hb).
  - exact Hne.
  - cbn [List.length]. lia.
  - exists out, calls'. split; [exact E | ]. cbn [List.length] in Hb. lia.
Qed.

Lemma getRandomBitString_terminates_witness :
  exists bits calls',
    getRandomBitString (fun _ => [true; false]) 5 3 0 = Some (bits, calls') /\
    Z.of_nat calls' - Z.of_nat 0 <= Z.max 0 3.
Proof.
  apply (getRandomBitString_terminates (fun _ => [true; false]) 5 3 0).
  - intros k _. discriminate.
  - reflexivity.
Defined.

Lemma select_base_skips_rejected (random : nat -> list bool)
    (nBits nSub : Z) (k : nat) :
  forall fuel calls,
    0 < nBits ->
    (forall j, (j <= k)%nat ->
       Z.of_nat (List.length (random (calls + j)%nat)) = nBits) ->
    (forall j, (j < k)%nat ->
       ~ 2 < BN_of_bits (random (calls + j)%nat) < nSub) ->
    2 < BN_of_bits (random (calls + k)%nat) < nSub ->
    (k + 3 <= fuel)%nat ->
    select_base random fuel nBits nSub calls
      = Some (BN_of_bits (random (calls + k)%nat), (calls + k + 1)%nat).
Proof.
  induction k as [ | k IH]; intros fuel calls Hn Hlen Hrej Hacc Hfuel.
  - destruct fuel as [ | fuel]; [lia | ]. cbn [select_base].
    rewrite Nat.add_0_r in *.
    rewrite getRandomBitString_exact; try lia.
    2: { rewrite <- (Hlen 0%nat) by lia. now rewrite Nat.add_0_r. }
    cbn [bind]. rewrite Z.gtb_ltb.
    destruct (Z.ltb_spec 2 (BN_of_bits (random calls))); [ | lia].
    destruct (Z.ltb_spec (BN_of_bits (random calls)) nSub); [ | lia].
    cbn [negb orb]. do 2 f_equal. lia.
  - destruct fuel as [ | fuel]; [lia | ]. cbn [select_base].
    rewrite getRandomBitString_exact; try lia.
    2: { rewrite <- (Hlen 0%nat) by lia. now rewrite Nat.add_0_r. }
    cbn [bind]. rewrite Z.gtb_ltb.
    pose proof (Hrej 0%nat ltac:(lia)) as H0. rewrite Nat.add_0_r in H0.
    assert (Hcond : negb (2 <? BN_of_bits (random calls))
                    || negb (BN_of_bits (random calls) <? nSub) = true).
    { destruct (Z.ltb_spec 2 (BN_of_bits (random calls))); [ | reflexivity].
      destruct (Z.ltb_spec (BN_of_bits (random calls)) nSub);
        [lia | reflexivity]. }
    rewrite Hcond.
    replace (calls + S k)%nat with (S calls + k)%nat in * by lia.
    apply IH; try lia.
    + intros j Hj. replace (S calls + j)%nat with (calls + S j)%nat by lia.
      apply Hlen. lia.
    + intros j Hj. replace (S calls + j)%nat with (calls + S j)%nat by lia.
      apply Hrej. lia.
Qed.

(** X12 (rejection sampling): when every draw is a string of exactly [nBits]
    digits, the selection loop retains the first drawn number that is
    greater than 2 and smaller than [nSub], having made one draw for it and
    one for each number rejected before it. *)
Theorem select_base_first_in_range (random : nat -> list bool)
    (nBits nSub : Z) (k fuel calls : nat) :
  0 < nBits ->
  (forall j, (j <= k)%nat ->
     Z.of_nat (List.length (random (calls + j)%nat)) = nBits) ->
  (forall j, (j < k)%nat ->
     ~ 2 < BN_of_bits (random (calls + j)%nat) < nSub) ->
  2 < BN_of_bits (random (calls + k)%nat) < nSub ->
  (k + 3 <= fuel)%nat ->
  select_base random fuel nBits nSub calls
    = Some (BN_of_bits (random (calls + k)%nat), (calls + k + 1)%nat).
Proof.
  intros Hbits Hlen Hrej Hacc Hfuel.
  apply (select_base_skips_rejected random nBits nSub k fuel calls);
    assumption.
Qed.

Lemma select_base_first_in_range_witness :
  select_base draws_7_then_3 4 5 6 0
    = Some (BN_of_bits (draws_7_then_3 (0 + 1)%nat), (0 + 1 + 1)%nat).
Proof.
  apply (select_base_first_in_range draws_7_then_3 5 6 1 4 0).
  - lia.
  - intros [ | [ | j]] Hj; try lia; reflexivity.
  - intros [ | j] Hj; [ | lia]. vm_compute. intros [_ H]. discriminate.
  - vm_compute. split; reflexivity.
  - lia.
Defined.

(** X13 (inputs below 4): for every input whose value [z] is below 4,
    negative ones included, and whatever [numRounds] is, [testPrimality]
    resolves without a random draw, with no witness and with [probablePrime]
    true exactly for 2 and 3.  The value of a bn.js number is the integer it
    holds; the value of a number of magnitude below [2 ^ 53] is its integer
    part, so that a fraction is tested as the integer below it (towards
    zero), which is also the [n] of the result. *)
Theorem testPrimality_below_4 (random : nat -> list bool) (fuel : nat)
    (z numRounds : Z) (calls : nat) :
  z < 4 ->
  testPrimality random fuel (JsInteger z) numRounds calls
    = Some (Resolved (mkResult z (2 <=? z) None), calls) /\
  (forall number,
     Z.abs (numerator number) < 2 ^ 53 * Z.pos (denominator number) ->
     integer_part number = z ->
     testPrimality random fuel (JsNumber number) numRounds calls
       = Some (Resolved (mkResult z (2 <=? z) None), calls)).
Proof.
  intros Hz.
  assert (H : testPrimality random fuel (JsInteger z) numRounds calls
              = Some (Resolved (mkResult z (2 <=? z) None), calls)).
  { unfold testPrimality. simpl BN_new. cbv beta iota.
    destruct (Z.ltb_spec z 2) as [H2 | H2].
    - destruct (Z.leb_spec 2 z); [lia | reflexivity].
    - destruct (Z.ltb_spec z 4) as [_ | H4]; [ | lia].
      destruct (Z.leb_spec 2 z); [reflexivity | lia]. }
  split; [exact H | ]. intros number Hsmall <-.
  now rewrite (testPrimality_by_value _ _ _ _ _ _ (BN_new_number _ Hsmall)).
Qed.

Lemma testPrimality_below_4_witness :
  testPrimality (fun _ => []) 0 (JsInteger 3) 7 0
    = Some (Resolved (mkResult 3 (2 <=? 3) None), 0%nat) /\
  (forall number,
     Z.abs (numerator number) < 2 ^ 53 * Z.pos (denominator number) ->
     integer_part number = 3 ->
     testPrimality (fun _ => []) 0 (JsNumber number) 7 0
       = Some (Resolved (mkResult 3 (2 <=? 3) None), 0%nat)).
Proof.
  apply (testPrimality_below_4 (fun _ => []) 0 3 7 0). lia.
Defined.

(** The number 3.9 is tested as 3 and reported a probable prime. *)
Example testPrimality_3_9 :
  testPrimality (fun _ => []) 0 (JsNumber (mkNumber 39 10)) 2 0
    = Some (Resolved (mkResult 3 true None), 0%nat).
Proof. reflexivity. Qed.

(** X14 (no rounds): with [numRounds <= 0] the loop body never runs, and
    every candidate of value [z >= 4], composite or not, given as a bn.js
    number or as a number below [2 ^ 53], is resolved as a probable prime
    without a witness and without a random draw. *)
Theorem testPrimality_no_rounds (random : nat -> list bool) (fuel : nat)
    (z numRounds : Z) (calls : nat) :
  4 <= z -> numRounds <= 0 ->
  testPrimality random fuel (JsInteger z) numRounds calls
    = Some (Resolved (mkResult z true None), calls) /\
  (forall number,
     Z.abs (numerator number) < 2 ^ 53 * Z.pos (denominator number) ->
     integer_part number = z ->
     testPrimality random fuel (JsNumber number) numRounds calls
       = Some (Resolved (mkResult z true None), calls)).
Proof.
  intros Hz Hr.
  assert (H : testPrimality random fuel (JsInteger z) numRounds calls
              = Some (Resolved (mkResult z true None), calls)).
  { unfold testPrimality. simpl BN_new. cbv beta iota.
    destruct (Z.ltb_spec z 2); [lia | ].
    destruct (Z.ltb_spec z 4); [lia | ].
    replace (Z.to_nat numRounds) with 0%nat by lia. reflexivity. }
  split; [exact H | ]. intros number Hsmall <-.
  now rewrite (testPrimality_by_value _ _ _ _ _ _ (BN_new_number _ Hsmall)).
Qed.

Lemma testPrimality_no_rounds_witness :
  testPrimality (fun _ => []) 0 (JsInteger 9) 0 0
    = Some (Resolved (mkResult 9 true None), 0%nat) /\
  (forall number,
     Z.abs (numerator number) < 2 ^ 53 * Z.pos (denominator number) ->
     integer_part number = 9 ->
     testPrimality (fun _ => []) 0 (JsNumber number) 0 0
       = Some (Resolved (mkResult 9 true None), 0%nat)).
Proof.
  apply (testPrimality_no_rounds (fun _ => []) 0 9 0 0); lia.
Defined.

(** X15 (what a round decides): for a candidate [n >= 4] the tester writes
    [n - 1 = d * 2 ^ r] with [d] odd, and a round with a base [b >= 0] lets
    [n] through exactly when [b ^ d] is 1, or [b ^ (d * 2 ^ j)] is [n - 1]
    for some [j] from 0 to [r] (the exponent [d * 2 ^ r = n - 1] included),
    modulo [n]. *)
Theorem round_passes_iff (n b : Z) :
  4 <= n -> 0 <= b ->
  let r := BN_zeroBits (n - 1) in
  let d := Z.quot (n - 1) (2 ^ r) in
  0 <= r /\ Z.odd d = true /\ n - 1 = d * 2 ^ r /\
  (round_of n b = NextRound <->
   (b ^ d) mod n = 1 \/
   exists j, 0 <= j <= r /\ (b ^ (d * 2 ^ j)) mod n = n - 1).
Proof.
  intros Hn Hb.
  pose proof (factor_nSub (n - 1) ltac:(lia)) as Hf. cbv zeta in *.
  destruct Hf as (Hr & Hd & Hodd & E).
  split; [exact Hr | ]. split; [exact Hodd | ]. split; [exact E | ].
  unfold round_of. cbv zeta.
  rewrite (round_body_passes n b (Z.quot (n - 1) (2 ^ BN_zeroBits (n - 1)))
             Hn Hb ltac:(lia) _ Hr).
  unfold power_residue. now rewrite Z.pow_0_r, Z.mul_1_r.
Qed.

Lemma round_passes_iff_witness :
  let r := BN_zeroBits (25 - 1) in
  let d := Z.quot (25 - 1) (2 ^ r) in
  0 <= r /\ Z.odd d = true /\ 25 - 1 = d * 2 ^ r /\
  (round_of 25 7 = NextRound <->
   (7 ^ d) mod 25 = 1 \/
   exists j, 0 <= j <= r /\ (7 ^ (d * 2 ^ j)) mod 25 = 25 - 1).
Proof.
  apply (round_passes_iff 25 7); lia.
Defined.

(** X16 (a prime is never labelled composite): for a prime input, whenever
    [testPrimality] resolves, whatever the random draws and [numRounds]
    are, [probablePrime] is true and there is no witness. *)
Theorem testPrimality_prime (random : nat -> list bool) (fuel : nat)
    (z numRounds : Z) (calls : nat) (result : MillerRabinResult)
    (calls' : nat) :
  Z.prime z ->
  testPrimality random fuel (JsInteger z) numRounds calls
    = Some (Resolved result, calls') ->
  n result = z /\ probablePrime result = true /\ witness result = None.
Proof.
  intros Hp. pose proof (Z.prime_ge_2 z Hp) as H2.
  unfold testPrimality. simpl BN_new. cbv beta iota.
  destruct (Z.ltb_spec z 2); [lia | ].
  destruct (Z.ltb_spec z 4) as [H4 | H4].
  { intros [= <- <-]. repeat split. }
  destruct (rounds random fuel (Z.to_nat numRounds) z (BN_bitLength z) (z - 1)
              (BN_zeroBits (z - 1)) (Z.quot (z - 1) (2 ^ BN_zeroBits (z - 1)))
              calls) as [[[pp w] calls1] | ] eqn:Hrun; cbn [bind];
    [ | discriminate].
  intros [= <- <-]. cbn [n probablePrime witness].
  pose proof (rounds_outcome random _ _ _ _ _ _ _ _ _ _ _ Hrun) as Hout.
  destruct w as [w | ]; [ | now repeat split].
  destruct Hout as (_ & Hrange & Hcomp).
  pose proof (prime_round_passes z w Hp H4 ltac:(lia)) as Hpass.
  unfold round_of in Hpass. cbv zeta in Hpass. congruence.
Qed.

Lemma testPrimality_prime_witness :
  n (mkResult 5 true None) = 5 /\
  probablePrime (mkResult 5 true None) = true /\
  witness (mkResult 5 true None) = None.
Proof.
  apply (testPrimality_prime (fun _ => [false; true; true]) 10 5 2 0
           (mkResult 5 true None) 2%nat).
  - exact prime_5.
  - reflexivity.
Defined.

(** X17 (what a result says): in a resolved result [n] is the input; a
    witness [w], when there is one, lies in [[3, n - 2]], the round with base
    [w] found [n] composite, and [n] is indeed not a prime;
    [probablePrime] is false exactly when [n < 2] or there is a witness. *)
Theorem testPrimality_result (random : nat -> list bool) (fuel : nat)
    (z numRounds : Z) (calls : nat) (result : MillerRabinResult)
    (calls' : nat) :
  testPrimality random fuel (JsInteger z) numRounds calls
    = Some (Resolved result, calls') ->
  n result = z /\
  (forall w, witness result = Some w ->
     3 <= w <= z - 2 /\ round_of z w = Composite /\ ~ Z.prime z) /\
  (probablePrime result = false <-> z < 2 \/ witness result <> None).
Proof.
  unfold testPrimality. simpl BN_new. cbv beta iota.
  destruct (Z.ltb_spec z 2) as [H2 | H2].
  { intros [= <- <-]. cbn [n probablePrime witness].
    split; [reflexivity | ]. split; [discriminate | ].
    split; [now left | reflexivity]. }
  destruct (Z.ltb_spec z 4) as [H4 | H4].
  { intros [= <- <-]. cbn [n probablePrime witness].
    split; [reflexivity | ]. split; [discriminate | ].
    split; [discriminate | ]. intros [H | H]; [lia | now contradiction H]. }
  destruct (rounds random fuel (Z.to_nat numRounds) z (BN_bitLength z) (z - 1)
              (BN_zeroBits (z - 1)) (Z.quot (z - 1) (2 ^ BN_zeroBits (z - 1)))
              calls) as [[[pp w] calls1] | ] eqn:Hrun; cbn [bind];
    [ | discriminate].
  intros [= <- <-]. cbn [n probablePrime witness].
  pose proof (rounds_outcome random _ _ _ _ _ _ _ _ _ _ _ Hrun) as Hout.
  split; [reflexivity | ].
  destruct w as [w | ].
  - destruct Hout as (-> & Hrange & Hcomp). split.
    + intros w' [= <-]. split; [lia | ]. split; [exact Hcomp | ].
      intros Hp.
      pose proof (prime_round_passes z w Hp H4 ltac:(lia)) as Hpass.
      unfold round_of in Hpass. cbv zeta in Hpass. congruence.
    + split; [intros _; right; discriminate | reflexivity].
  - subst pp. split; [discriminate | ].
    split; [discriminate | ]. intros [H | H]; [lia | now contradiction H].
Qed.

Lemma testPrimality_result_witness :
  n (mkResult 25 false (Some 3)) = 25 /\
  (forall w, witness (mkResult 25 false (Some 3)) = Some w ->
     3 <= w <= 25 - 2 /\ round_of 25 w = Composite /\ ~ Z.prime 25) /\
  (probablePrime (mkResult 25 false (Some 3)) = false <->
   25 < 2 \/ witness (mkResult 25 false (Some 3)) <> None).
Proof.
  apply (testPrimality_result draws_7_then_3 10 25 5 0
           (mkResult 25 false (Some 3)) 2%nat).
  reflexivity.
Defined.

(** *** Runs with draws that are all in range *)

Section ValidDraws.

Variable random : nat -> list bool.
Variables z : Z.
Hypothesis Hvalid :
  forall k,
    Z.of_nat (List.length (random k)) = BN_bitLength z /\
    2 < BN_of_bits (random k) < z - 1.

Let base_of (k : nat) : Z := BN_of_bits (random k).

Lemma valid_draws_candidate : 5 <= z.
Proof. destruct (Hvalid 0%nat) as [_ H]. lia. Qed.

Lemma select_base_valid (fuel calls : nat) :
  (3 <= fuel)%nat ->
  select_base random fuel (BN_bitLength z) (z - 1) calls
    = Some (base_of calls, S calls).
Proof.
  intros Hfuel. pose proof valid_draws_candidate as Hz.
  pose proof (select_base_skips_rejected random (BN_bitLength z) (z - 1) 0
                fuel calls) as H.
  rewrite !Nat.add_0_r in H. rewrite H.
  - do 2 f_equal. lia.
  - destruct z; simpl; lia.
  - intros j Hj. replace j with 0%nat by lia. rewrite Nat.add_0_r.
    apply Hvalid.
  - intros j Hj. lia.
  - apply Hvalid.
  - lia.
Qed.

Lemma rounds_all_pass (fuel : nat) (r d : Z) (todo : nat) :
  (3 <= fuel)%nat ->
  forall calls,
    (forall j, (j < todo)%nat ->
       round_body z (z - 1) r d (base_of (calls + j)) = NextRound) ->
    rounds random fuel todo z (BN_bitLength z) (z - 1) r d calls
      = Some (true, None, (calls + todo)%nat).
Proof.
  intros Hfuel. induction todo as [ | todo IH]; intros calls Hpass.
  - cbn [rounds]. now rewrite Nat.add_0_r.
  - cbn [rounds]. rewrite select_base_valid by exact Hfuel. cbn [bind].
    pose proof (Hpass 0%nat ltac:(lia)) as H0. rewrite Nat.add_0_r in H0.
    rewrite H0, IH.
    + do 2 f_equal. lia.
    + intros j Hj. replace (S calls + j)%nat with (calls + S j)%nat by lia.
      apply Hpass. lia.
Qed.

Lemma rounds_first_composite (fuel : nat) (r d : Z) (k : nat) :
  (3 <= fuel)%nat ->
  forall todo calls,
    (k < todo)%nat ->
    (forall j, (j < k)%nat ->
       round_body z (z - 1) r d (base_of (calls + j)) = NextRound) ->
    round_body z (z - 1) r d (base_of (calls + k)) = Composite ->
    rounds random fuel todo z (BN_bitLength z) (z - 1) r d calls
      = Some (false, Some (base_of (calls + k)), (calls + k + 1)%nat).
Proof.
  intros Hfuel. induction k as [ | k IH]; intros todo calls Hk Hpass Hfail;
    (destruct todo as [ | todo]; [lia | ]);
    cbn [rounds]; rewrite select_base_valid by exact Hfuel; cbn [bind].
  - rewrite Nat.add_0_r in *. rewrite Hfail. do 2 f_equal. lia.
  - pose proof (Hpass 0%nat ltac:(lia)) as H0. rewrite Nat.add_0_r in H0.
    rewrite H0.
    replace (calls + S k)%nat with (S calls + k)%nat in * by lia.
    apply IH; [lia | | exact Hfail].
    intros j Hj. replace (S calls + j)%nat with (calls + S j)%nat by lia.
    apply Hpass. lia.
Qed.

End ValidDraws.

(** X18 (runs with draws in range): when every draw is a string of
    [bitLength n] digits of a number between 3 and [n - 2], round [j] tests
    the [j]-th drawn number.  If the first [numRounds] of them all let [n]
    through, the promise resolves with [probablePrime = true] and no witness
    after [numRounds] draws; if the [k]-th, [k < numRounds], is the first that
    finds [n] composite, the promise resolves with [probablePrime = false]
    and that number as witness after [k + 1] draws. *)
Theorem testPrimality_valid_draws (random : nat -> list bool) (fuel : nat)
    (z numRounds : Z) (calls : nat) :
  (forall k,
     Z.of_nat (List.length (random k)) = BN_bitLength z /\
     2 < BN_of_bits (random k) < z - 1) ->
  (3 <= fuel)%nat -> 0 <= numRounds ->
  ((forall j, (j < Z.to_nat numRounds)%nat ->
      round_of z (BN_of_bits (random (calls + j)%nat)) = NextRound) ->
   testPrimality random fuel (JsInteger z) numRounds calls
     = Some (Resolved (mkResult z true None),
             (calls + Z.to_nat numRounds)%nat)) /\
  (forall k, (k < Z.to_nat numRounds)%nat ->
     (forall j, (j < k)%nat ->
        round_of z (BN_of_bits (random (calls + j)%nat)) = NextRound) ->
     round_of z (BN_of_bits (random (calls + k)%nat)) = Composite ->
     testPrimality random fuel (JsInteger z) numRounds calls
       = Some (Resolved
                 (mkResult z false (Some (BN_of_bits (random (calls + k)%nat)))),
               (calls + k + 1)%nat)).
Proof.
  intros Hvalid Hfuel Hrounds.
  pose proof (valid_draws_candidate random z Hvalid) as Hz.
  unfold round_of. cbv zeta. split.
  - intros Hpass. unfold testPrimality. simpl BN_new. cbv beta iota.
    destruct (Z.ltb_spec z 2); [lia | ].
    destruct (Z.ltb_spec z 4); [lia | ].
    now rewrite (rounds_all_pass random z Hvalid fuel _ _ _ Hfuel calls Hpass).
  - intros k Hk Hpass Hfail. unfold testPrimality. simpl BN_new.
    cbv beta iota.
    destruct (Z.ltb_spec z 2); [lia | ].
    destruct (Z.ltb_spec z 4); [lia | ].
    now rewrite (rounds_first_composite random z Hvalid fuel _ _ k Hfuel
                   _ calls Hk Hpass Hfail).
Qed.

Lemma draws_7_then_3_valid (k : nat) :
  Z.of_nat (List.length (draws_7_then_3 k)) = BN_bitLength 25 /\
  2 < BN_of_bits (draws_7_then_3 k) < 25 - 1.
Proof.
  destruct k as [ | k]; vm_compute; repeat split; reflexivity.
Qed.

Lemma testPrimality_valid_draws_witness :
  ((forall j, (j < Z.to_nat 5)%nat ->
      round_of 25 (BN_of_bits (draws_7_then_3 (0 + j)%nat)) = NextRound) ->
   testPrimality draws_7_then_3 10 (JsInteger 25) 5 0
     = Some (Resolved (mkResult 25 true None), (0 + Z.to_nat 5)%nat)) /\
  (forall k, (k < Z.to_nat 5)%nat ->
     (forall j, (j < k)%nat ->
        round_of 25 (BN_of_bits (draws_7_then_3 (0 + j)%nat)) = NextRound) ->
     round_of 25 (BN_of_bits (draws_7_then_3 (0 + k)%nat)) = Composite ->
     testPrimality draws_7_then_3 10 (JsInteger 25) 5 0
       = Some (Resolved
                 (mkResult 25 false
                    (Some (BN_of_bits (draws_7_then_3 (0 + k)%nat)))),
               (0 + k + 1)%nat)).
Proof.
  apply (testPrimality_valid_draws draws_7_then_3 10 25 5 0).
  - exact draws_7_then_3_valid.
  - lia.
  - lia.
Defined.

End TesterProperties.
